(** * capsel: a dependency-injection runtime, verified against its specification

  The development embeds the TypeScript sources shallowly:
  - [Types], [Dependencies], [Modules]: the injection marker, over a heap of
    objects with their prototype chains, and the module factory with its
    role base classes (types.ts, dependencies.ts, modules.ts);
  - [DevStableConcern]: the dev-stable global cache, whose initializers
    return or throw (concerns/devstable.ts);
  - [KernelModel]: the container, which the sources only import;
  - [Invoke]: the kernel discovery chain (kernel-current.ts, kernel-als.ts,
    kernel-global.ts, kernel-invoke.ts);
  - [Memo]: the memoization engine, which the sources only import.

  Definitions come first; the theorems follow in a second part. *)

From stdpp Require Import gmap strings list sorting.
From Stdlib Require Import ZArith Floats.SpecFloat.

Set Warnings "-register-all".

Local Open Scope Z_scope.
Local Open Scope nat_scope.

(* ===================================================================== *)
(** * Part I: definitions                                                  *)
(* ===================================================================== *)

(** ** types.ts *)
Module Types.

(** [type Scope = "singleton" | "invoke" | "transient"] *)
Inductive Scope := SingletonScope | InvokeScope | TransientScope.

#[global] Instance Scope_eq_dec : EqDecision Scope.
Proof. solve_decision. Defined.

Definition Scope_to_string (s : Scope) : string :=
  match s with
  | SingletonScope => "singleton"
  | InvokeScope => "invoke"
  | TransientScope => "transient"
  end.

(** A number is an IEEE 754 double: a signed zero, a signed infinity, NaN or
    a signed mantissa with an exponent. *)
#[global] Instance spec_float_eq_dec : EqDecision spec_float.
Proof. solve_decision. Defined.

(** [PropertyKey = string | number | symbol]; symbols are compared by
    reference, which the identifier stands for. *)
Inductive PropertyKey :=
| PKString (s : string)
| PKNumber (n : spec_float)
| PKSymbol (id : nat).

#[global] Instance PropertyKey_eq_dec : EqDecision PropertyKey.
Proof. solve_decision. Defined.

End Types.

(** ** dependencies.ts: the injection marker *)
Module Dependencies.
Import Types.

(** [class UnresolvedDependency<TClass>] with its three readonly fields. *)
Record UnresolvedDependency (TClass : Type) := mkUnresolved {
  token : TClass;
  scope : Scope;
  unwrap : option PropertyKey;
}.
Arguments mkUnresolved {TClass} _ _ _.
Arguments token {TClass} _.
Arguments scope {TClass} _.
Arguments unwrap {TClass} _.

(** [tokenizedDependency(defaultClass, scope, unwrap?)] only allocates the
    marker: it takes no container and calls no constructor of the class. *)
Definition tokenizedDependency {DefaultClass : Type}
    (defaultClass : DefaultClass) (scope : Scope)
    (unwrap : option PropertyKey) : UnresolvedDependency DefaultClass :=
  mkUnresolved defaultClass scope unwrap.

(** The values a function may be handed ([v: unknown]).  The primitives are
    data; an object or a function (a class is one) is a reference into the
    heap. *)
Inductive value :=
| VUndefined
| VNull
| VBoolean (b : bool)
| VNumber (n : spec_float)
| VBigInt (n : Z)
| VString (s : string)
| VSymbol (id : nat)
| VRef (r : nat).

#[global] Instance value_eq_dec : EqDecision value.
Proof. solve_decision. Defined.

(** An object on the heap: whether it can be called (functions and classes
    can), its own data properties in the order they were created, and its
    prototype, [None] for [null]. *)
Record JSObject := mkObject {
  callable : bool;
  own : list (PropertyKey * value);
  prototype : option nat;
}.

Abbreviation Heap := (gmap nat JSObject).

(** [new]: the object gets a reference no object of the heap has. *)
Definition new_object (o : JSObject) (h : Heap) : value * Heap :=
  let r := fresh (dom h) in (VRef r, <[r := o]> h).

(** The prototypes above an object, nearest first.  Prototype chains are
    finite and without cycle, so as many steps as the heap has objects reach
    the end of the chain. *)
Fixpoint prototype_chain (h : Heap) (fuel : nat) (r : nat) : list nat :=
  match fuel with
  | 0 => []
  | S n =>
      match h !! r ≫= prototype with
      | Some p => p :: prototype_chain h n p
      | None => []
      end
  end.

(** [v instanceof C] for a class [C] that declares no [Symbol.hasInstance]:
    whether [C.prototype] is among the prototypes above [v]; false of what is
    no object. *)
Definition instanceof (h : Heap) (v : value) (C_prototype : nat) : bool :=
  match v with
  | VRef r => bool_decide (C_prototype ∈ prototype_chain h (size h) r)
  | _ => false
  end.

(** [getInjectionPoint(v)]; [UnresolvedDependency_prototype] is the object
    [UnresolvedDependency.prototype]. *)
Definition getInjectionPoint (UnresolvedDependency_prototype : nat) (h : Heap)
    (v : value) : value :=
  if instanceof h v UnresolvedDependency_prototype then v else VNull.

Definition unwrap_value (u : option PropertyKey) : value :=
  match u with
  | None => VUndefined
  | Some (PKString s) => VString s
  | Some (PKNumber n) => VNumber n
  | Some (PKSymbol i) => VSymbol i
  end.

(** The three properties the constructor of [UnresolvedDependency] assigns. *)
Definition marker_properties (m : UnresolvedDependency value)
    : list (PropertyKey * value) :=
  [ (PKString "token", token m);
    (PKString "scope", VString (Scope_to_string (scope m)));
    (PKString "unwrap", unwrap_value (unwrap m)) ].

(** The object [new UnresolvedDependency(token, scope, unwrap)] creates: the
    three properties, on the prototype of the class. *)
Definition marker_object (UnresolvedDependency_prototype : nat)
    (m : UnresolvedDependency value) : JSObject :=
  mkObject false (marker_properties m) (Some UnresolvedDependency_prototype).

(** The marker of [tokenizedDependency] as it lies on the heap. *)
Definition new_UnresolvedDependency (UnresolvedDependency_prototype : nat)
    (m : UnresolvedDependency value) (h : Heap) : value * Heap :=
  new_object (marker_object UnresolvedDependency_prototype m) h.

(** [Object.setPrototypeOf(v, proto)] on an object [v]. *)
Definition setPrototypeOf (v : value) (proto : option nat) (h : Heap) : Heap :=
  match v with
  | VRef r => alter (λ o, mkObject (callable o) (own o) proto) r h
  | _ => h
  end.

(** A plain object literal [{ token, scope, unwrap }] with the shape of a
    marker but not built by the class; [Object_prototype] is the object
    [Object.prototype]. *)
Definition lookalike (Object_prototype : nat) (m : UnresolvedDependency value)
    : JSObject :=
  mkObject false (marker_properties m) (Some Object_prototype).

Fixpoint own_property (key : PropertyKey) (props : list (PropertyKey * value))
    : option value :=
  match props with
  | [] => None
  | (k, v) :: rest => if decide (k = key) then Some v else own_property key rest
  end.

(** The data property an object has under a key, its own or the nearest one
    on its prototype chain. *)
Fixpoint get_property (h : Heap) (fuel : nat) (r : nat) (key : PropertyKey)
    : option value :=
  match fuel with
  | 0 => None
  | S n =>
      match h !! r with
      | None => None
      | Some o =>
          match own_property key (own o) with
          | Some v => Some v
          | None =>
              match prototype o with
              | Some p => get_property h n p key
              | None => None
              end
          end
      end
  end.

(** [key in v], for an object [v]. *)
Definition has_property (h : Heap) (v : value) (key : PropertyKey) : bool :=
  match v with
  | VRef r => bool_decide (is_Some (get_property h (S (size h)) r key))
  | _ => false
  end.

(** [v[key]], for an object [v]. *)
Definition get (h : Heap) (v : value) (key : PropertyKey) : value :=
  match v with
  | VRef r => default VUndefined (get_property h (S (size h)) r key)
  | _ => VUndefined
  end.

End Dependencies.

(** ** modules.ts: the module factory and its [inject] *)
Module Modules.
Import Types Dependencies.

(** [type Layer] *)
Inductive Layer := facade | service | repo | controller | other.

#[global] Instance Layer_eq_dec : EqDecision Layer.
Proof. solve_decision. Defined.

Definition Layer_to_string (l : Layer) : string :=
  match l with
  | facade => "facade"
  | service => "service"
  | repo => "repo"
  | controller => "controller"
  | other => "other"
  end.

(** [class ClassBrand] *)
Record ClassBrand := mkBrand {
  moduleName : string;
  layerName : Layer;
}.

(** [ModuleClass]: a class object carrying the static [BRAND] and the
    static [scope].  [class_id] is the identity of the class object. *)
Record ModuleClass := mkClass {
  class_id : nat;
  BRAND : ClassBrand;
  class_scope : Scope;
}.

#[global] Instance ClassBrand_eq_dec : EqDecision ClassBrand.
Proof. solve_decision. Defined.
#[global] Instance ModuleClass_eq_dec : EqDecision ModuleClass.
Proof. solve_decision. Defined.

(** [throw new Error(message)] *)
Record Error := mkError { message : string }.

Definition cross_module_message (key : ModuleClass) (name : string) : string :=
  "Cross-module " +:+ Layer_to_string (layerName (BRAND key))
    +:+ " dependency is not allowed."
    +:+ " Use a Facade."
    +:+ " (Tried to inject a " +:+ Layer_to_string (layerName (BRAND key))
    +:+ " from " +:+ moduleName (BRAND key)
    +:+ " into " +:+ name +:+ ")".

(** [inject(key, scope?)] inside [createModule(moduleName)]: the closure
    variable [moduleName] is the first argument. *)
Definition inject (name : string) (key : ModuleClass) (scope : option Scope)
    : Error + UnresolvedDependency ModuleClass :=
  if bool_decide (moduleName (BRAND key) ≠ name)
     && bool_decide (layerName (BRAND key) ≠ facade)
  then inl (mkError (cross_module_message key name))
  else inr (tokenizedDependency key (default (class_scope key) scope) None).

(** The six abstract classes [createModule] returns. *)
Inductive Role := Facade | Service | Repo | Controller | Singleton | Class.

Record Module := mkModule {
  mFacade : ModuleClass;
  mService : ModuleClass;
  mRepo : ModuleClass;
  mController : ModuleClass;
  mSingleton : ModuleClass;
  mClass : ModuleClass;
}.

(** [createModule(moduleName)]: every call declares six new classes; [next]
    is the supply of class identities and is returned advanced. *)
Definition createModule (name : string) (next : nat) : Module * nat :=
  ({| mFacade := mkClass next (mkBrand name facade) TransientScope;
      mService := mkClass (next + 1) (mkBrand name service) InvokeScope;
      mRepo := mkClass (next + 2) (mkBrand name repo) InvokeScope;
      mController := mkClass (next + 3) (mkBrand name controller) TransientScope;
      mSingleton := mkClass (next + 4) (mkBrand name other) SingletonScope;
      mClass := mkClass (next + 5) (mkBrand name other) TransientScope |},
   next + 6).

Definition role_class (m : Module) (r : Role) : ModuleClass :=
  match r with
  | Facade => mFacade m
  | Service => mService m
  | Repo => mRepo m
  | Controller => mController m
  | Singleton => mSingleton m
  | Class => mClass m
  end.

(** [class C extends Base { static scope = s }]: a subclass is a new class
    object; static members it does not redeclare are inherited. *)
Definition extends (base : ModuleClass) (id : nat) (own_scope : option Scope)
    : ModuleClass :=
  mkClass id (BRAND base) (default (class_scope base) own_scope).

End Modules.

(** ** concerns/devstable.ts *)
Module DevStableConcern.
Import Dependencies.

(** The two variables of [process.env] the file reads; an unset variable is
    [undefined]. *)
Record Env := mkEnv {
  VLA_DEV_STABLE : option string;
  NODE_ENV : option string;
}.

(** The process as [devStable] sees it: the environment, the properties
    reachable on [globalThis], and, for counting, the keys whose [init] has
    been invoked (latest first), whether the invocation returned or threw. *)
Record Process := mkProcess {
  env : Env;
  globalThis : gmap string value;
  inits : list string;
}.

Definition VLA_DEV_STABLE_PREFIX : string := "__vla_dev_stable__".

(** [isDevStableEnabled()] *)
Definition isDevStableEnabled (e : Env) : bool :=
  if bool_decide (VLA_DEV_STABLE e = Some "1") then true
  else bool_decide (NODE_ENV e ≠ Some "production").

(** How a call ends: it returns a value or throws one.  [init: () => T] is
    caller code and may do either; it is taken to leave the properties of
    [globalThis] alone. *)
Inductive Completion :=
| Returned (v : value)
| Thrown (e : value).

(** Calling [init()]: the call is recorded, whichever way it ends. *)
Definition call_init (key : string) (init : unit → Completion) (p : Process)
    : Completion * Process :=
  (init tt, mkProcess (env p) (globalThis p) (key :: inits p)).

(** [devStable(key, init)].  In [g[fullKey] = init()] the right-hand side is
    evaluated before the property is written, so an [init] that throws leaves
    [globalThis] as it was and the exception leaves [devStable]. *)
Definition devStable (key : string) (init : unit → Completion) (p : Process)
    : Completion * Process :=
  if negb (isDevStableEnabled (env p)) then call_init key init p
  else
    let fullKey := VLA_DEV_STABLE_PREFIX +:+ key in
    if bool_decide (is_Some (globalThis p !! fullKey))
    then (Returned (default VUndefined (globalThis p !! fullKey)), p)
    else
      match call_init key init p with
      | (Returned v, p1) =>
          let p2 := mkProcess (env p1) (<[fullKey := v]> (globalThis p1))
                              (inits p1) in
          (Returned (default VUndefined (globalThis p2 !! fullKey)), p2)
      | (Thrown e, p1) => (Thrown e, p1)
      end.

(** A series of [devStable] calls, each with its own key and initializer and
    each made by a caller of its own: a call that throws does not keep the
    later ones from being made.  The completions come back in call order. *)
Fixpoint devStable_all (calls : list (string * (unit → Completion)))
    (p : Process) : list Completion * Process :=
  match calls with
  | [] => ([], p)
  | (key, init) :: rest =>
      let '(v, p1) := devStable key init p in
      let '(vs, p2) := devStable_all rest p1 in
      (v :: vs, p2)
  end.

(** How often [init] has run for [key]. *)
Definition init_count (key : string) (p : Process) : nat :=
  length (filter (λ k, k = key) (inits p)).

(** How many calls of a series were made with [key] and threw. *)
Fixpoint thrown_count (key : string)
    (calls : list (string * (unit → Completion)))
    (results : list Completion) : nat :=
  match calls, results with
  | (k, _) :: calls', Thrown _ :: results' =>
      (if decide (k = key) then 1 else 0) + thrown_count key calls' results'
  | _ :: calls', Returned _ :: results' => thrown_count key calls' results'
  | _, _ => 0
  end.

End DevStableConcern.

(** ** kernel.ts: the container

    The sources import [Kernel] from [./kernel] but the file is not part of
    them; the container is therefore written after sections 3, 4.1, 4.2 and 6
    of the specification.  The injection marker it scans for is the one of
    dependencies.ts. *)
Module KernelModel.
Import Types Dependencies.

(** Modelled from the spec: the producer of a binding (kernel.ts is missing),
    "either an implementation descriptor to instantiate, or a concrete fixed
    value".  Classes and values are named by reference. *)
Inductive Producer := PClass (c : nat) | PValue (v : nat).

#[global] Instance Producer_eq_dec : EqDecision Producer.
Proof. solve_decision. Defined.

#[global] Instance Producer_countable : Countable Producer.
Proof.
  refine (inj_countable'
    (λ p, match p with PClass c => inl c | PValue v => inr v end)
    (λ x, match x with inl c => PClass c | inr v => PValue v end) _).
  by intros [].
Defined.

(** Modelled from the spec: what a resolution hands back, an instance on the
    heap (object identity is the reference) or a bound fixed value. *)
Inductive Resolved := RInstance (ref : nat) | RValue (v : nat).

#[global] Instance Resolved_eq_dec : EqDecision Resolved.
Proof. solve_decision. Defined.

(** Modelled from the spec: a binding, "(producer, effective lifecycle)";
    [bind]'s lifecycle argument is optional. *)
Record Binding := mkBinding {
  b_producer : Producer;
  b_scope : option Scope;
}.

(** Modelled from the spec: a field initializer of a class.  It declares a
    dependency (the marker of dependencies.ts), yields plain data, or throws. *)
Inductive FieldInit :=
| InitMarker (m : UnresolvedDependency nat)
| InitData (v : nat)
| InitThrows (e : nat).

(** Modelled from the spec: a dependency identity, "a class-like descriptor"
    with "a declared default lifecycle" and "an optional unwrap key", and the
    field initializers its constructor runs. *)
Record ClassDecl := mkDecl {
  d_scope : Scope;
  d_unwrap : option PropertyKey;
  d_fields : list (string * FieldInit);
}.

(** Modelled from the spec: the value of a field of an instance: a marker
    not yet replaced, plain data, or the resolved dependency put in its
    place (kernel.ts is missing). *)
Inductive FieldValue :=
| FMarker (m : UnresolvedDependency nat)
| FData (v : nat)
| FResolved (r : Resolved).

(** Modelled from the spec: an instance on the heap, with the class it was
    made from and its own fields (kernel.ts is missing). *)
Record Instance := mkInstance {
  i_class : nat;
  i_fields : list (string * FieldValue);
}.

(** Modelled from the spec: a container.  Its identity, the reference to the
    process-wide cache of its family and its parent never change; what it
    owns and mutates (its overrides, its call-scoped cache) is in the store
    under [k_id]. *)
Record Kernel := mkKernel {
  k_id : nat;
  k_singletons : nat;
  k_parent : option nat;
}.

#[global] Instance Kernel_eq_dec : EqDecision Kernel.
Proof. solve_decision. Defined.

(** Modelled from the spec: the mutable state behind all containers: own
    bindings and call-scoped cache per container, the process-wide caches by
    reference, the heap of instances, the constructor calls made so far
    (latest first) and the supply of references. *)
Record Store := mkStore {
  bindings : gmap nat (gmap nat Binding);
  invokeCaches : gmap nat (gmap Producer Resolved);
  singletonCaches : gmap nat (gmap Producer Resolved);
  heap : gmap nat Instance;
  constructions : list nat;
  next_ref : nat;
}.

(** Modelled from the spec: the store before any container exists
    (kernel.ts is missing). *)
Definition empty_store : Store := mkStore ∅ ∅ ∅ ∅ [] 0.

(** Modelled from the spec: [new Kernel()], a root with nothing bound and
    nothing cached, owning a process-wide cache of its own. *)
Definition new_Kernel (s : Store) : Kernel * Store :=
  (mkKernel (next_ref s) (S (next_ref s)) None,
   mkStore (<[next_ref s := ∅]> (bindings s))
           (<[next_ref s := ∅]> (invokeCaches s))
           (<[S (next_ref s) := ∅]> (singletonCaches s))
           (heap s) (constructions s) (S (S (next_ref s)))).

(** Modelled from the spec: [scoped()], "derives a child container sharing
    the process-wide cache"; "a child's call-scoped cache is always empty at
    creation". *)
Definition scoped (k : Kernel) (s : Store) : Kernel * Store :=
  (mkKernel (next_ref s) (k_singletons k) (Some (k_id k)),
   mkStore (<[next_ref s := ∅]> (bindings s))
           (<[next_ref s := ∅]> (invokeCaches s))
           (singletonCaches s)
           (heap s) (constructions s) (S (next_ref s))).

(** Modelled from the spec: the three maps a container reads: "a Binding
    Registry (its own overrides only)", its own call-scoped cache, and the
    process-wide cache it shares with its family (kernel.ts is missing). *)
Definition own_bindings (k : Kernel) (s : Store) : gmap nat Binding :=
  default ∅ (bindings s !! k_id k).

Definition invoke_cache (k : Kernel) (s : Store) : gmap Producer Resolved :=
  default ∅ (invokeCaches s !! k_id k).

Definition singleton_cache (k : Kernel) (s : Store) : gmap Producer Resolved :=
  default ∅ (singletonCaches s !! k_singletons k).

(** Modelled from the spec: [bind(identity, producer, lifecycle?)], an
    override on this container; rebinding replaces the previous binding. *)
Definition bind (k : Kernel) (identity : nat) (impl : Producer)
    (scope : option Scope) (s : Store) : Store :=
  mkStore (<[k_id k := <[identity := mkBinding impl scope]> (own_bindings k s)]>
             (bindings s))
          (invokeCaches s) (singletonCaches s) (heap s) (constructions s)
          (next_ref s).

(** Modelled from the spec: [bindValue(identity, value, lifecycle = singleton)]. *)
Definition bindValue (k : Kernel) (identity v : nat) (scope : option Scope)
    (s : Store) : Store :=
  bind k identity (PValue v) (Some (default SingletonScope scope)) s.

(** Modelled from the spec: [context(identity, value)], "sugar for bindValue
    at per-call lifecycle, returns the container for chaining". *)
Definition context (k : Kernel) (identity v : nat) (s : Store) : Kernel * Store :=
  (k, bindValue k identity v (Some InvokeScope) s).

(** Modelled from the spec: the failures of section 7, a configuration
    error or a construction failure (kernel.ts is missing). *)
Inductive Failure :=
| ConfigurationError (identity : nat)
| ConstructionFailure (e : nat).

(** Modelled from the spec: how a resolution of the missing kernel.ts ends.
    It returns, throws, or exhausts the recursion budget (the call stack) on
    a cyclic dependency graph; each way leaves a store behind. *)
Inductive Outcome (A : Type) :=
| Done (a : A) (s : Store)
| Threw (e : Failure) (s : Store)
| OutOfFuel (s : Store).
Arguments Done {A} _ _.
Arguments Threw {A} _ _.
Arguments OutOfFuel {A} _.

Definition outcome_store {A} (o : Outcome A) : Store :=
  match o with
  | Done _ s => s
  | Threw _ s => s
  | OutOfFuel s => s
  end.

Section Program.

(** The classes of the application, by reference. *)
Variable program : gmap nat ClassDecl.

(** Modelled from the spec: step 1 of [resolve], "own binding for identity,
    else the identity acting as its own producer". *)
Definition producer_for (k : Kernel) (identity : nat) (s : Store) : Producer :=
  match own_bindings k s !! identity with
  | Some b => b_producer b
  | None => PClass identity
  end.

(** Modelled from the spec: step 2 of [resolve], "explicit override argument,
    else the binding's declared lifecycle, else the identity's own default
    lifecycle". *)
Definition effective_lifecycle (k : Kernel) (identity : nat)
    (override : option Scope) (s : Store) : option Scope :=
  match override with
  | Some sc => Some sc
  | None =>
      match own_bindings k s !! identity ≫= b_scope with
      | Some sc => Some sc
      | None => d_scope <$> program !! identity
      end
  end.

(** Modelled from the spec: running the field initializers of [new C()],
    first to last; "constructing a producer whose own field initializers
    throw propagates the failure" (kernel.ts is missing). *)
Fixpoint run_initializers (fs : list (string * FieldInit))
    : Failure + list (string * FieldValue) :=
  match fs with
  | [] => inr []
  | (name, InitThrows e) :: _ => inl (ConstructionFailure e)
  | (name, InitMarker m) :: rest =>
      match run_initializers rest with
      | inr vs => inr ((name, FMarker m) :: vs)
      | inl e => inl e
      end
  | (name, InitData v) :: rest =>
      match run_initializers rest with
      | inr vs => inr ((name, FData v) :: vs)
      | inl e => inl e
      end
  end.

(** Modelled from the spec: the writes of a resolution to the store:
    recording a constructor call, allocating the instance, replacing its
    fields after the scan, and storing into the process-wide or the
    call-scoped cache (kernel.ts is missing). *)
Definition log_construction (c : nat) (s : Store) : Store :=
  mkStore (bindings s) (invokeCaches s) (singletonCaches s) (heap s)
          (c :: constructions s) (next_ref s).

Definition allocate (i : Instance) (s : Store) : nat * Store :=
  (next_ref s,
   mkStore (bindings s) (invokeCaches s) (singletonCaches s)
           (<[next_ref s := i]> (heap s)) (constructions s) (S (next_ref s))).

Definition write_fields (ref : nat) (i : Instance) (s : Store) : Store :=
  mkStore (bindings s) (invokeCaches s) (singletonCaches s)
          (<[ref := i]> (heap s)) (constructions s) (next_ref s).

Definition store_singleton (k : Kernel) (p : Producer) (r : Resolved)
    (s : Store) : Store :=
  mkStore (bindings s) (invokeCaches s)
          (<[k_singletons k := <[p := r]> (singleton_cache k s)]> (singletonCaches s))
          (heap s) (constructions s) (next_ref s).

Definition store_invoke (k : Kernel) (p : Producer) (r : Resolved)
    (s : Store) : Store :=
  mkStore (bindings s)
          (<[k_id k := <[p := r]> (invoke_cache k s)]> (invokeCaches s))
          (singletonCaches s) (heap s) (constructions s) (next_ref s).

Section Construct.

(** The resolver the scan calls back into. *)
Variable rec : nat → option Scope → Store → Outcome Resolved.

(** Modelled from the spec: the scan of step 4, "for each [marker],
    recursively call resolve with the marker's requested identity and
    lifecycle override, replacing the field's value with the resolved
    result". *)
Fixpoint fill_fields (fs : list (string * FieldValue)) (s : Store)
    : Outcome (list (string * FieldValue)) :=
  match fs with
  | [] => Done [] s
  | (name, FMarker m) :: rest =>
      match rec (token m) (Some (scope m)) s with
      | Done r s1 =>
          match fill_fields rest s1 with
          | Done vs s2 => Done ((name, FResolved r) :: vs) s2
          | other => other
          end
      | Threw e s1 => Threw e s1
      | OutOfFuel s1 => OutOfFuel s1
      end
  | f :: rest =>
      match fill_fields rest s with
      | Done vs s1 => Done (f :: vs) s1
      | other => other
      end
  end.

(** Modelled from the spec: [construct(producer)], "instantiate the producer
    with no external arguments, then scan the freshly created instance's own
    fields"; a fixed value is handed back as it is; a producer that is no
    known class is a configuration error. *)
Definition construct (p : Producer) (s : Store) : Outcome Resolved :=
  match p with
  | PValue v => Done (RValue v) s
  | PClass c =>
      match program !! c with
      | None => Threw (ConfigurationError c) s
      | Some d =>
          let s0 := log_construction c s in
          match run_initializers (d_fields d) with
          | inl e => Threw e s0
          | inr raw =>
              let '(ref, s1) := allocate (mkInstance c raw) s0 in
              match fill_fields raw s1 with
              | Done vs s2 =>
                  Done (RInstance ref) (write_fields ref (mkInstance c vs) s2)
              | Threw e s2 => Threw e s2
              | OutOfFuel s2 => OutOfFuel s2
              end
          end
      end
  end.

End Construct.

(** Modelled from the spec: [resolve(identity, lifecycleOverride?)], steps 1
    to 3 of section 4.2; "on miss, construct and store before returning";
    per-use "never read or write any cache". *)
Fixpoint resolve (fuel : nat) (k : Kernel) (identity : nat)
    (override : option Scope) (s : Store) : Outcome Resolved :=
  match fuel with
  | 0 => OutOfFuel s
  | S n =>
      let p := producer_for k identity s in
      match effective_lifecycle k identity override s with
      | None => Threw (ConfigurationError identity) s
      | Some SingletonScope =>
          match singleton_cache k s !! p with
          | Some r => Done r s
          | None =>
              match construct (resolve n k) p s with
              | Done r s1 => Done r (store_singleton k p r s1)
              | other => other
              end
          end
      | Some InvokeScope =>
          match invoke_cache k s !! p with
          | Some r => Done r s
          | None =>
              match construct (resolve n k) p s with
              | Done r s1 => Done r (store_invoke k p r s1)
              | other => other
              end
          end
      | Some TransientScope => construct (resolve n k) p s
      end
  end.

(** Modelled from the spec: the operations of the container construction
    surface of section 6, as a host performs them one after the other
    (kernel.ts is missing). *)
Inductive Op :=
| OpNew
| OpScoped (k : Kernel)
| OpBind (k : Kernel) (identity : nat) (impl : Producer) (scope : option Scope)
| OpBindValue (k : Kernel) (identity v : nat) (scope : option Scope)
| OpResolve (fuel : nat) (k : Kernel) (identity : nat) (override : option Scope).

Definition run_op (o : Op) (s : Store) : Store :=
  match o with
  | OpNew => (new_Kernel s).2
  | OpScoped k => (scoped k s).2
  | OpBind k x impl sc => bind k x impl sc s
  | OpBindValue k x v sc => bindValue k x v sc s
  | OpResolve fuel k x o => outcome_store (resolve fuel k x o s)
  end.

End Program.

End KernelModel.

(** ** kernel-current.ts, kernel-als.ts, kernel-global.ts, kernel-invoke.ts *)
Module Invoke.
Import KernelModel.

(** [type CurrentKernelFn = () => Kernel]: the function may create
    containers, so it runs on the store. *)
Definition CurrentKernelFn : Type := Store → Kernel * Store.

(** The module-level variables of the four files, over the store of
    containers: [let currentKernelFn], the store of the [AsyncLocalStorage]
    in the running asynchronous context ([als.getStore()], [None] for
    [undefined]) and [let globalKernel]. *)
Record Runtime := mkRuntime {
  store : Store;
  currentKernelFn : option CurrentKernelFn;
  als : option Kernel;
  globalKernel : option Kernel;
}.

(** [setCurrentKernelFn(fnKernel)] *)
Definition setCurrentKernelFn (fnKernel : CurrentKernelFn) (rt : Runtime) : Runtime :=
  mkRuntime (store rt) (Some fnKernel) (als rt) (globalKernel rt).

(** [getCurrentKernelFromFn()]: [currentKernelFn?.()] *)
Definition getCurrentKernelFromFn (rt : Runtime) : option Kernel * Runtime :=
  match currentKernelFn rt with
  | None => (None, rt)
  | Some fn =>
      let '(k, s) := fn (store rt) in
      (Some k, mkRuntime s (currentKernelFn rt) (als rt) (globalKernel rt))
  end.

(** [runWithKernel(scopedKernel, fn)]: [als.run(scopedKernel, fn)] runs [fn]
    with the carrier set and leaves the caller's context as it was. *)
Definition runWithKernel {T} (scopedKernel : Kernel)
    (fn : Runtime → T * Runtime) (rt : Runtime) : T * Runtime :=
  let '(t, rt1) :=
    fn (mkRuntime (store rt) (currentKernelFn rt) (Some scopedKernel)
                  (globalKernel rt)) in
  (t, mkRuntime (store rt1) (currentKernelFn rt1) (als rt) (globalKernel rt1)).

(** [getAlsKernel()]: [als.getStore() ?? null] *)
Definition getAlsKernel (rt : Runtime) : option Kernel := als rt.

(** [setGlobalKernel(kernel)] *)
Definition setGlobalKernel (kernel : Kernel) (rt : Runtime) : Runtime :=
  mkRuntime (store rt) (currentKernelFn rt) (als rt) (Some kernel).

(** [getGlobalKernel()] *)
Definition getGlobalKernel (rt : Runtime) : option Kernel := globalKernel rt.

Definition on_store (rt : Runtime) (r : Kernel * Store) : Kernel * Runtime :=
  (r.1, mkRuntime r.2 (currentKernelFn rt) (als rt) (globalKernel rt)).

(** [getInvokeKernel()]: the [??] chain evaluates an operand only when all
    the operands before it were nullish. *)
Definition getInvokeKernel (rt : Runtime) : Kernel * Runtime :=
  match getCurrentKernelFromFn rt with
  | (Some k, rt1) => (k, rt1)
  | (None, rt1) =>
      match getAlsKernel rt1 with
      | Some k => (k, rt1)
      | None =>
          match getGlobalKernel rt1 with
          | Some g => on_store rt1 (scoped g (store rt1))
          | None => on_store rt1 (new_Kernel (store rt1))
          end
      end
  end.

End Invoke.

(** ** concerns/memo.ts: the argument key

    The sources import [Memoizable] from [../concerns/memo] but the file is
    not part of them; key derivation and engine are written after sections 3
    and 4.5 of the specification. *)
Module MemoKey.

(** Modelled from the spec: the arguments a memoized function is called
    with (memo.ts is missing): scalars, or "structured (keyed) arguments",
    objects as their properties in insertion order, and arrays. *)
Inductive data :=
| DUndefined
| DNull
| DBool (b : bool)
| DNum (n : Z)
| DStr (s : string)
| DArr (items : list data)
| DObj (fields : list (string * data)).

(** Modelled from the spec: the "single scalar arguments" of the missing
    memo.ts, anything that is neither an array nor an object. *)
Definition is_scalar (d : data) : bool :=
  match d with
  | DArr _ | DObj _ => false
  | _ => true
  end.

(** Modelled from the spec: the order that makes the serialization
    "order-independent" (memo.ts is missing): properties go by their names. *)
Definition name_le (p q : string * data) : Prop := String.le p.1 q.1.

#[global] Instance name_le_dec : RelDecision name_le.
Proof. intros p q. unfold name_le. apply _. Defined.

(** Modelled from the spec: the "deterministic, order-independent
    serialization": every object is rewritten with its properties sorted by
    name, at every depth. *)
Fixpoint serialize (d : data) : data :=
  match d with
  | DArr items => DArr (map serialize items)
  | DObj fields =>
      DObj (merge_sort name_le (map (λ p, (p.1, serialize p.2)) fields))
  | _ => d
  end.

(** Modelled from the spec: a cache key, "single scalar arguments use their
    own value as the key", any other argument list its serialization. *)
Inductive ArgKey :=
| OwnValue (d : data)
| Serialized (d : data).

Definition argKey (args : list data) : ArgKey :=
  match args with
  | [d] => if is_scalar d then OwnValue d else Serialized (serialize (DArr args))
  | _ => Serialized (serialize (DArr args))
  end.

(** Objects of the host language have each property name once. *)
Fixpoint well_formed (d : data) : Prop :=
  match d with
  | DArr items => foldr (λ x acc, well_formed x ∧ acc) True items
  | DObj fields =>
      NoDup (fields.*1) ∧ foldr (λ p acc, well_formed p.2 ∧ acc) True fields
  | _ => True
  end.

(** The same argument value up to the order in which the properties of its
    objects were written: scalars are equal, arrays agree item by item, and
    an object agrees with any reordering [fields2'] of the other object's
    properties that matches it name by name and value by value. *)
Inductive same_value : data → data → Prop :=
| same_undefined : same_value DUndefined DUndefined
| same_null : same_value DNull DNull
| same_bool b : same_value (DBool b) (DBool b)
| same_num n : same_value (DNum n) (DNum n)
| same_str s : same_value (DStr s) (DStr s)
| same_arr items1 items2 :
    Forall2 same_value items1 items2 →
    same_value (DArr items1) (DArr items2)
| same_obj fields1 fields2 fields2' :
    fields2 ≡ₚ fields2' →
    Forall2 (λ p q, p.1 = q.1 ∧ same_value p.2 q.2) fields1 fields2' →
    same_value (DObj fields1) (DObj fields2).

End MemoKey.

(** ** concerns/memo.ts: the memoization engine *)
Module Memo.

Section Engine.

Context {Args K V E : Type} `{Countable K}.

(** The argument-key derivation ([MemoKey.argKey] for the arguments of the
    host language). *)
Variable argKey : Args → K.

(** Modelled from the spec: how a pending result ends (memo.ts is missing). *)
Inductive Settlement := Fulfilled (v : V) | Rejected (e : E).

(** Modelled from the spec: a pending result is "in flight" until it
    settles (memo.ts is missing). *)
Inductive PromiseState := InFlight | Settled (o : Settlement).

(** Modelled from the spec: a cache entry, "value-or-pending-result"; a
    pending result is held by identity. *)
Inductive Entry := Value (v : V) | Pending (p : nat).

(** Modelled from the spec: the wrapped function hands back "its result (or
    its pending promise)". *)
Inductive FnResult := Returns (v : V) | Starts.

(** The wrapped function; its first argument counts the earlier invocations,
    so that it need not answer the same way twice. *)
Variable fn : nat → Args → FnResult.

(** Modelled from the spec: the state of one memoized function on one
    instance: the cache, the pending results with their states, the
    evictions armed (pending result, key), the invocations of the wrapped
    function (latest first), and the supply of pending results. *)
Record State := mkState {
  cache : gmap K Entry;
  promises : gmap nat PromiseState;
  armed : list (nat * K);
  calls : list Args;
  next_promise : nat;
}.

(** Modelled from the spec: a memoized function nobody has called yet
    (memo.ts is missing). *)
Definition empty_state : State := mkState ∅ ∅ [] [] 0.

(** Modelled from the spec: a pending result created outside the engine, to
    be primed with (memo.ts is missing). *)
Definition new_promise (s : State) : nat * State :=
  (next_promise s,
   mkState (cache s) (<[next_promise s := InFlight]> (promises s)) (armed s)
           (calls s) (S (next_promise s))).

(** Modelled from the spec: invoking the wrapped function; the invocation is
    recorded and a pending result it starts is in flight (memo.ts is
    missing). *)
Definition invoke (a : Args) (s : State) : Entry * State :=
  match fn (length (calls s)) a with
  | Returns v =>
      (Value v,
       mkState (cache s) (promises s) (armed s) (a :: calls s) (next_promise s))
  | Starts =>
      (Pending (next_promise s),
       mkState (cache s) (<[next_promise s := InFlight]> (promises s)) (armed s)
               (a :: calls s) (S (next_promise s)))
  end.

(** Modelled from the spec: "store its result (or its pending promise) under
    the key immediately"; a pending result gets its eviction armed. *)
Definition put (k : K) (e : Entry) (s : State) : State :=
  mkState (<[k := e]> (cache s)) (promises s)
          (match e with Pending p => (p, k) :: armed s | Value _ => armed s end)
          (calls s) (next_promise s).

(** Modelled from the spec: the memoized call, "if a live entry exists,
    return it (same pending result if still in flight); else invoke the
    wrapped function, store [...] then return it". *)
Definition memoized (a : Args) (s : State) : Entry * State :=
  match cache s !! argKey a with
  | Some e => (e, s)
  | None => let '(e, s1) := invoke a s in (e, put (argKey a) e s1)
  end.

(** Modelled from the spec: [fresh], "always invoke the wrapped function,
    ignoring any existing entry, and overwrite the entry". *)
Definition fresh (a : Args) (s : State) : Entry * State :=
  let '(e, s1) := invoke a s in (e, put (argKey a) e s1).

(** Modelled from the spec: [prime(args).value(v)], "set the entry for
    args's key to v without invoking the function". *)
Definition prime (a : Args) (e : Entry) (s : State) : State :=
  put (argKey a) e s.

(** Modelled from the spec: [preload], "identical to the memoized call". *)
Definition preload (a : Args) (s : State) : Entry * State := memoized a s.

(** Modelled from the spec: [bust(args)], "remove exactly the entry for that
    key, if present". *)
Definition bust (a : Args) (s : State) : State :=
  mkState (delete (argKey a) (cache s)) (promises s) (armed s) (calls s)
          (next_promise s).

(** Modelled from the spec: [bustAll], "remove every entry". *)
Definition bustAll (s : State) : State :=
  mkState ∅ (promises s) (armed s) (calls s) (next_promise s).

(** Modelled from the spec: whether key [k] still holds the pending result
    [p] (memo.ts is missing). *)
Definition holds_pending (c : gmap K Entry) (k : K) (p : nat) : bool :=
  match c !! k with
  | Some (Pending q) => bool_decide (q = p)
  | _ => false
  end.

(** Modelled from the spec: "a rejected/failed pending result removes its
    own entry": every key armed for [p] that still holds [p] is deleted. *)
Definition evict (p : nat) (arms : list (nat * K)) (c : gmap K Entry)
    : gmap K Entry :=
  foldr (λ qk acc,
           if bool_decide (qk.1 = p) && holds_pending acc qk.2 p
           then delete qk.2 acc else acc)
        c arms.

(** Modelled from the spec: a pending result settles, once; "if the stored
    pending result later fails, remove the entry" (memo.ts is missing). *)
Definition settle (p : nat) (o : Settlement) (s : State) : State :=
  match promises s !! p with
  | Some InFlight =>
      mkState (match o with
               | Rejected _ => evict p (armed s) (cache s)
               | Fulfilled _ => cache s
               end)
              (<[p := Settled o]> (promises s)) (armed s) (calls s)
              (next_promise s)
  | _ => s
  end.

(** Modelled from the spec: the operations of section 4.5 and the
    settlements, in the order they happen to one memoized function (memo.ts
    is missing). *)
Inductive Op :=
| OpCall (a : Args)
| OpFresh (a : Args)
| OpPrime (a : Args) (e : Entry)
| OpPreload (a : Args)
| OpBust (a : Args)
| OpBustAll
| OpNewPromise
| OpSettle (p : nat) (o : Settlement).

Definition run_op (o : Op) (s : State) : State :=
  match o with
  | OpCall a => (memoized a s).2
  | OpFresh a => (fresh a s).2
  | OpPrime a e => prime a e s
  | OpPreload a => (preload a s).2
  | OpBust a => bust a s
  | OpBustAll => bustAll s
  | OpNewPromise => (new_promise s).2
  | OpSettle p o => settle p o s
  end.

Definition run_ops (ops : list Op) (s : State) : State :=
  foldl (λ acc o, run_op o acc) s ops.

End Engine.

End Memo.

(** ** modules.ts: the type [AllowedDependency] *)
Module StaticBoundary.
Import Types Modules.

(** [Capitalize<S>]: the first character in upper case. *)
Definition upper (c : Ascii.ascii) : Ascii.ascii :=
  let n := Ascii.nat_of_ascii c in
  if bool_decide (97 ≤ n ∧ n ≤ 122) then Ascii.ascii_of_nat (n - 32) else c.

Definition Capitalize (s : string) : string :=
  match s with
  | EmptyString => EmptyString
  | String c rest => String (upper c) rest
  end.

(** What the type of a key says of it: the class with the literal types of
    its brand, and whether it is assignable to [InstantiableClass<unknown>],
    that is [new () => unknown].  A concrete class whose constructor takes no
    argument is; an abstract class, as each of the six role classes of
    [createModule], is not. *)
Record KeyType := mkKeyType {
  key_class : ModuleClass;
  instantiable : bool;
}.

(** [LayerOf<T>] *)
Definition LayerOf (key : KeyType) : Layer := layerName (BRAND (key_class key)).

(** [Key extends ModuleClass<ModuleName, LayerName>], where [ModuleClass] is
    [InstantiableClass<unknown> & Branded<ModuleName, LayerName> & Scoped];
    every key carries a [scope]. *)
Definition extends_ModuleClass (key : KeyType) (name : option string)
    (layers : Layer → bool) : bool :=
  instantiable key
  && match name with
     | Some n => bool_decide (moduleName (BRAND (key_class key)) = n)
     | None => true
     end
  && layers (layerName (BRAND (key_class key))).

(** [AllowedDependency<ModuleName, Key>]: the key itself or a string literal
    no class is assignable to.  [ForbiddenCrossModuleClass] is
    [ModuleClass<string, Exclude<Layer, "facade">>].  [name] is the literal
    type [createModule] infers for its [const] type parameter from a string
    literal. *)
Definition AllowedDependency (name : string) (key : KeyType)
    : string + KeyType :=
  if extends_ModuleClass key (Some name) (λ _, true) then inr key
  else if extends_ModuleClass key None (λ l, bool_decide (l ≠ facade))
       then inl ("Cross-module " +:+ Capitalize (Layer_to_string (LayerOf key))
                 +:+ " injection is not allowed. Use a Facade.")
       else inr key.

End StaticBoundary.

(** ** modules.ts: the guards [isObject] and [isClass] *)
Module Guards.
Import Types Dependencies.

(** [typeof v]; a reference is an object unless the heap has it callable. *)
Definition typeof (h : Heap) (v : value) : string :=
  match v with
  | VUndefined => "undefined"
  | VNull => "object"
  | VBoolean _ => "boolean"
  | VNumber _ => "number"
  | VBigInt _ => "bigint"
  | VString _ => "string"
  | VSymbol _ => "symbol"
  | VRef r =>
      match h !! r with
      | Some o => if callable o then "function" else "object"
      | None => "object"
      end
  end.

(** [isObject(v)] *)
Definition isObject (h : Heap) (v : value) : bool :=
  (String.eqb (typeof h v) "object" || String.eqb (typeof h v) "function")
  && negb (bool_decide (v = VNull)).

(** [isClass(v)] *)
Definition isClass (h : Heap) (v : value) : bool :=
  isObject h v
  && has_property h v (PKString "constructor")
  && String.eqb (typeof h (get h v (PKString "constructor"))) "function".

End Guards.

(** ** invariant.ts *)
Module Invariant.
Import Types Dependencies Modules.

(** [ToBoolean], which [!condition] negates: [undefined], [null], [false],
    both zeros, NaN, the bigint zero and the empty string are false, all else
    is true. *)
Definition truthy (v : value) : bool :=
  match v with
  | VUndefined | VNull => false
  | VBoolean b => b
  | VNumber (S754_zero _) | VNumber S754_nan => false
  | VNumber _ => true
  | VBigInt n => negb (n =? 0)%Z
  | VString s => negb (String.eqb s EmptyString)
  | VSymbol _ | VRef _ => true
  end.

(** [invariant(condition, message = "Invariant violated")]: an omitted
    message is [None]. *)
Definition invariant (condition : value) (message : option string)
    : Error + unit :=
  if negb (truthy condition)
  then inl (mkError (default "Invariant violated" message))
  else inr tt.

End Invariant.

(** ** A host program over the kernel discovery chain *)
Module InvokeHost.
Import KernelModel Invoke.

(** What a host does with the four files, in order: it sets the
    current-kernel function, registers the global kernel, asks for the
    kernel of an invocation, or runs a block under [runWithKernel]. *)
Inductive Step :=
| SetCurrentKernelFn (fn : CurrentKernelFn)
| SetGlobalKernel (k : Kernel)
| GetInvokeKernel
| RunWithKernel (k : Kernel) (body : list Step).

(** Running a step returns the kernels [getInvokeKernel] answered, in order. *)
Fixpoint run_step (st : Step) (rt : Runtime) {struct st} : list Kernel * Runtime :=
  match st with
  | SetCurrentKernelFn fn => ([], setCurrentKernelFn fn rt)
  | SetGlobalKernel k => ([], setGlobalKernel k rt)
  | GetInvokeKernel => let '(k, rt1) := getInvokeKernel rt in ([k], rt1)
  | RunWithKernel k body =>
      runWithKernel k
        ((fix go (l : list Step) (rt0 : Runtime) : list Kernel * Runtime :=
            match l with
            | [] => ([], rt0)
            | s :: l' =>
                let '(ks, rt1) := run_step s rt0 in
                let '(ks', rt2) := go l' rt1 in
                (ks ++ ks', rt2)
            end) body)
        rt
  end.

Fixpoint run_steps (l : list Step) (rt : Runtime) : list Kernel * Runtime :=
  match l with
  | [] => ([], rt)
  | s :: l' =>
      let '(ks, rt1) := run_step s rt in
      let '(ks', rt2) := run_steps l' rt1 in
      (ks ++ ks', rt2)
  end.

(** The steps that set the current-kernel function, at any depth. *)
Fixpoint sets_fn (st : Step) : bool :=
  match st with
  | SetCurrentKernelFn _ => true
  | SetGlobalKernel _ | GetInvokeKernel => false
  | RunWithKernel _ body => existsb sets_fn body
  end.

(** The kernel each [getInvokeKernel] of a block is expected to find when
    only the carrier decides: the one of the innermost enclosing
    [runWithKernel]. *)
Fixpoint carried (k : Kernel) (st : Step) : list Kernel :=
  match st with
  | SetCurrentKernelFn _ | SetGlobalKernel _ => []
  | GetInvokeKernel => [k]
  | RunWithKernel k' body => flat_map (carried k') body
  end.

End InvokeHost.

(* ===================================================================== *)
(** * Part II: theorems                                                    *)
(* ===================================================================== *)

(** ** The injection marker and the module factory *)
Module ModulesSpec.
Import Types Dependencies Modules.

Definition throws {A} (r : Error + A) : Prop := ∃ e, r = inl e.

Definition boundary_violation (name : string) (key : ModuleClass) : Prop :=
  moduleName (BRAND key) ≠ name ∧ layerName (BRAND key) ≠ facade.

#[global] Instance boundary_violation_dec name key :
  Decision (boundary_violation name key).
Proof. unfold boundary_violation. apply _. Defined.

Lemma inject_unfold name key scope :
  inject name key scope =
    if decide (boundary_violation name key)
    then inl (mkError (cross_module_message key name))
    else inr (tokenizedDependency key (default (class_scope key) scope) None).
Proof.
  unfold inject, boundary_violation.
  destruct (decide (_ ∧ _)) as [[H1 H2]|Hn].
  - by rewrite !bool_decide_eq_true_2.
  - destruct (decide (moduleName (BRAND key) = name)) as [->|Hm].
    + by rewrite bool_decide_eq_false_2 by auto.
    + rewrite (bool_decide_eq_true_2 _ Hm).
      rewrite bool_decide_eq_false_2; [done|]. intros Hl. apply Hn. done.
Qed.

Lemma inject_allowed name key scope :
  ¬ boundary_violation name key →
  inject name key scope
    = inr (tokenizedDependency key (default (class_scope key) scope) None).
Proof. intros Hn. rewrite inject_unfold. by destruct (decide _). Qed.

Lemma inject_violation name key scope :
  boundary_violation name key →
  inject name key scope = inl (mkError (cross_module_message key name)).
Proof. intros Hv. rewrite inject_unfold. by destruct (decide _). Qed.

(** C2, as the specification states it, fails: [inject] of module "Posts"
    handed the [Service] base class of module "Users" throws at runtime, and
    the message names the brand. *)
Lemma inject_cross_module_service_throws :
  inject "Posts" (mService (createModule "Users" 0).1) None
    = inl (mkError ("Cross-module service dependency is not allowed." +:+
                    " Use a Facade." +:+
                    " (Tried to inject a service from Users into Posts)"))
  ∧ ¬ (∀ name key scope, ¬ throws (inject name key scope)).
Proof.
  split; [reflexivity|].
  intros Hnever.
  apply (Hnever "Posts" (mService (createModule "Users" 0).1) None).
  eexists. reflexivity.
Qed.

(** C2, amended: [inject] checks the boundary at runtime.  It throws exactly
    when the key is branded with another module's name and its layer is not
    "facade", with the message built from the brand; on every other key it
    returns normally. *)
Theorem inject_runtime_boundary_check (name : string) (key : ModuleClass)
    (scope : option Scope) :
  (throws (inject name key scope) ↔ boundary_violation name key)
  ∧ (∀ e, inject name key scope = inl e →
          message e = cross_module_message key name)
  ∧ (¬ boundary_violation name key → ∃ m, inject name key scope = inr m).
Proof.
  rewrite inject_unfold. destruct (decide (boundary_violation name key)) as [Hv|Hn].
  - split; [|split].
    + split; [done|]. intros _. by eexists.
    + intros e [= <-]. done.
    + done.
  - split; [|split].
    + split; [|done]. by intros [e ?].
    + by intros e ?.
    + intros _. by eexists.
Qed.

Lemma inject_runtime_boundary_check_witness :
  boundary_violation "Posts" (mService (createModule "Users" 0).1)
  ∧ throws (inject "Posts" (mService (createModule "Users" 0).1) None)
  ∧ ¬ boundary_violation "Posts" (mFacade (createModule "Users" 0).1)
  ∧ ∃ m, inject "Posts" (mFacade (createModule "Users" 0).1) None = inr m.
Proof.
  assert (Hv : boundary_violation "Posts" (mService (createModule "Users" 0).1)).
  { split; intros Heq; discriminate Heq. }
  assert (Hn : ¬ boundary_violation "Posts" (mFacade (createModule "Users" 0).1)).
  { intros [_ Hl]. apply Hl. reflexivity. }
  split; [exact Hv|]. split; [|split; [exact Hn|]].
  - exact (proj2 (proj1 (inject_runtime_boundary_check "Posts"
                           (mService (createModule "Users" 0).1) None)) Hv).
  - exact (proj2 (proj2 (inject_runtime_boundary_check "Posts"
                           (mFacade (createModule "Users" 0).1) None)) Hn).
Defined.

(** C3, as the specification states it, fails for [inject]: on a key of
    another module that is no facade no marker is returned at all. *)
Lemma inject_returns_no_marker_across_modules :
  ¬ (∀ name key scope, ∃ m,
        inject name key scope = inr m ∧ token m = key
        ∧ Dependencies.scope m = default (class_scope key) scope)
  ∧ ∀ m, inject "Billing" (mRepo (createModule "Users" 0).1)
                (Some SingletonScope) ≠ inr m.
Proof.
  split.
  - intros Hall.
    destruct (Hall "Billing" (mRepo (createModule "Users" 0).1)
                   (Some SingletonScope)) as (m & Hm & _).
    discriminate Hm.
  - intros m Hm. discriminate Hm.
Qed.

(** C3, amended: [tokenizedDependency] always returns a marker holding the
    key itself, the scope it was given and the unwrap key it was given, and
    nothing else happens: it is a function of its arguments alone.  [inject]
    returns the marker for the key itself with the explicit scope when one is
    given and the key's declared scope otherwise, and no unwrap key, whenever
    the key passes the module boundary check. *)
Theorem inject_returns_marker :
  (∀ (TClass : Type) (key : TClass) (scope : Scope) (unwrap : option PropertyKey),
      let m := tokenizedDependency key scope unwrap in
      token m = key ∧ Dependencies.scope m = scope
      ∧ Dependencies.unwrap m = unwrap)
  ∧ (∀ (name : string) (key : ModuleClass) (scope : option Scope),
      ¬ boundary_violation name key →
      ∃ m, inject name key scope = inr m
           ∧ token m = key
           ∧ Dependencies.scope m
               = match scope with Some sc => sc | None => class_scope key end
           ∧ Dependencies.unwrap m = None).
Proof.
  split.
  - intros. subst m. done.
  - intros name key scope Hn. rewrite (inject_allowed _ _ _ Hn).
    eexists. split; [done|]. by destruct scope.
Qed.

Lemma inject_returns_marker_witness :
  ¬ boundary_violation "Users" (mRepo (createModule "Users" 0).1)
  ∧ ∃ m, inject "Users" (mRepo (createModule "Users" 0).1) None = inr m
         ∧ token m = mRepo (createModule "Users" 0).1
         ∧ Dependencies.scope m = InvokeScope
         ∧ Dependencies.unwrap m = None.
Proof.
  assert (Hn : ¬ boundary_violation "Users" (mRepo (createModule "Users" 0).1)).
  { intros [Hne _]. apply Hne. reflexivity. }
  split; [exact Hn|].
  exact (proj2 inject_returns_marker "Users"
               (mRepo (createModule "Users" 0).1) None Hn).
Defined.

(** The lifecycles section 4 of the documentation gives the role classes. *)
Definition documented_lifecycle (r : Role) : Scope :=
  match r with
  | Facade | Controller | Class => TransientScope
  | Service | Repo => InvokeScope
  | Singleton => SingletonScope
  end.

(** C10: in every module [createModule] returns, Facade, Controller and
    Class declare "transient", Service and Repo "invoke", Singleton
    "singleton".  A class that extends a role class without redeclaring
    [scope] inherits it, and the module's own [inject] without a scope
    argument returns a marker with that scope; so does any other module's
    [inject] whenever it returns a marker. *)
Theorem role_default_lifecycles (name : string) (next : nat) (r : Role) :
  let base := role_class (createModule name next).1 r in
  class_scope base = documented_lifecycle r
  ∧ (∀ id, ∃ m, inject name (extends base id None) None = inr m
               ∧ Dependencies.scope m = documented_lifecycle r)
  ∧ (∃ m, inject name base None = inr m
          ∧ Dependencies.scope m = documented_lifecycle r)
  ∧ (∀ other id m, inject other (extends base id None) None = inr m →
                   Dependencies.scope m = documented_lifecycle r).
Proof.
  intros base.
  assert (Hs : class_scope base = documented_lifecycle r) by (by destruct r).
  assert (Hb : moduleName (BRAND base) = name) by (by destruct r).
  split; [exact Hs|]. split; [|split].
  - intros id. rewrite inject_allowed.
    + eexists. split; [done|]. simpl. exact Hs.
    + intros [Hne _]. apply Hne. exact Hb.
  - rewrite inject_allowed.
    + eexists. split; [done|]. simpl. exact Hs.
    + intros [Hne _]. apply Hne. exact Hb.
  - intros other id m. rewrite inject_unfold.
    destruct (decide _); [done|]. intros [= <-]. simpl. exact Hs.
Qed.

Lemma role_default_lifecycles_witness :
  inject "Posts" (extends (mFacade (createModule "Users" 0).1) 9 None) None
    = inr (tokenizedDependency
             (extends (mFacade (createModule "Users" 0).1) 9 None)
             TransientScope None)
  ∧ Dependencies.scope
      (tokenizedDependency
         (extends (mFacade (createModule "Users" 0).1) 9 None)
         TransientScope None)
    = documented_lifecycle Facade.
Proof.
  assert (Hinj : inject "Posts"
                   (extends (mFacade (createModule "Users" 0).1) 9 None) None
                 = inr (tokenizedDependency
                          (extends (mFacade (createModule "Users" 0).1) 9 None)
                          TransientScope None)) by reflexivity.
  split; [exact Hinj|].
  exact (proj2 (proj2 (proj2 (role_default_lifecycles "Users" 0 Facade)))
           "Posts" 9 _ Hinj).
Defined.

Lemma heap_inhabited (h : Heap) r o : h !! r = Some o → ∃ n, size h = S n.
Proof.
  intros Hr. destruct (size h) as [|n] eqn:Hs; [|by exists n].
  apply map_size_empty_inv in Hs. subst h. by rewrite lookup_empty in Hr.
Qed.

(** [new_object] adds the object under a new reference and moves no other. *)
Lemma new_object_spec o (h : Heap) :
  ∃ r, new_object o h = (VRef r, <[r := o]> h) ∧ h !! r = None.
Proof.
  exists (fresh (dom h)). split; [done|].
  apply not_elem_of_dom, is_fresh.
Qed.

(** With less fuel [prototype_chain] stops earlier on the same chain. *)
Lemma prototype_chain_take (h : Heap) k n r :
  k ≤ n → prototype_chain h k r = take k (prototype_chain h n r).
Proof.
  revert n r. induction k as [|k IH]; intros n r Hkn; [done|].
  destruct n as [|n]; [lia|]. simpl.
  destruct (h !! r ≫= prototype) as [p|]; [|done].
  simpl. f_equal. apply IH. lia.
Qed.

(** All but the last object of a chain are on the heap. *)
Lemma prototype_chain_dom (h : Heap) n r :
  Forall (λ x, x ∈ dom h)
         (take (length (prototype_chain h n r)) (r :: prototype_chain h n r)).
Proof.
  revert r. induction n as [|n IH]; intros r; [constructor|].
  simpl. destruct (h !! r ≫= prototype) as [p|] eqn:Hp; [|constructor].
  simpl. constructor; [|apply IH].
  apply elem_of_dom. destruct (h !! r); [by eexists|done].
Qed.

(** On a chain without cycle, as many steps as the heap has objects reach
    its end: more fuel finds nothing more. *)
Lemma prototype_chain_complete (h : Heap) n r :
  size h ≤ n →
  NoDup (r :: prototype_chain h n r) →
  prototype_chain h (size h) r = prototype_chain h n r.
Proof.
  intros Hn Hnd.
  rewrite (prototype_chain_take h (size h) n r Hn).
  apply take_ge.
  pose proof (prototype_chain_dom h n r) as Hdom.
  set (l := take (length (prototype_chain h n r)) (r :: prototype_chain h n r))
    in Hdom.
  assert (Hl : length l = length (prototype_chain h n r)).
  { unfold l. rewrite length_take. simpl. lia. }
  assert (Hndl : NoDup l).
  { unfold l. exact (sublist_NoDup _ _ Hnd (sublist_take _ _)). }
  rewrite <-Hl, <-(size_dom (D := gset nat) h).
  rewrite <-(size_list_to_set (C := gset nat) l Hndl).
  apply subseteq_size. intros x Hx. apply elem_of_list_to_set in Hx.
  by apply (proj1 (Forall_forall _ _) Hdom).
Qed.

Lemma instanceof_direct U (h : Heap) r o :
  h !! r = Some o → prototype o = Some U → instanceof h (VRef r) U = true.
Proof.
  intros Hr Hp. unfold instanceof. apply bool_decide_eq_true.
  destruct (heap_inhabited h r o Hr) as [n ->]. simpl.
  rewrite Hr. simpl. rewrite Hp. left.
Qed.

Lemma getInjectionPoint_unfold U h v :
  getInjectionPoint U h v
  = match v with
    | VRef r =>
        if decide (U ∈ prototype_chain h (size h) r) then v else VNull
    | _ => VNull
    end.
Proof.
  unfold getInjectionPoint, instanceof. destruct v; try done.
  by destruct (decide _) as [Hin|Hin];
    [rewrite bool_decide_eq_true_2|rewrite bool_decide_eq_false_2].
Qed.

Lemma getInjectionPoint_no_prototype U (h : Heap) r o :
  h !! r = Some o → prototype o = None →
  getInjectionPoint U h (VRef r) = VNull.
Proof.
  intros Hr Hproto.
  rewrite getInjectionPoint_unfold. destruct (decide _) as [Hin|Hin]; [|done].
  exfalso. destruct (heap_inhabited h r _ Hr) as [n Hn]. rewrite Hn in Hin.
  simpl in Hin. rewrite Hr in Hin. simpl in Hin. rewrite Hproto in Hin.
  by apply elem_of_nil in Hin.
Qed.

(** A heap with [Object.prototype] at 0, [UnresolvedDependency.prototype] at
    1 and the class [UnresolvedDependency] at 2; a marker of
    [tokenizedDependency] at 4, a plain object with the properties of that
    marker at 5, and the object
    [Object.create(UnresolvedDependency.prototype)] at 6; the class the
    marker names is at 3. *)
Definition sample_marker : UnresolvedDependency value :=
  tokenizedDependency (VRef 3) InvokeScope None.

Definition sample_heap : Heap :=
  {[ 0 := mkObject false [] None;
     1 := mkObject false [(PKString "constructor", VRef 2)] (Some 0);
     2 := mkObject true [(PKString "prototype", VRef 1)] None;
     3 := mkObject true [] None;
     4 := marker_object 1 sample_marker;
     5 := lookalike 0 sample_marker;
     6 := mkObject false [] (Some 1) ]}.

(** C8, as the specification states it, fails: [instanceof] asks for the
    prototype, not for the constructor call.  The object
    [Object.create(UnresolvedDependency.prototype)] has none of the three
    properties and was not made by [tokenizedDependency], and
    [getInjectionPoint] hands it back. *)
Lemma getInjectionPoint_returns_forged_instance :
  getInjectionPoint 1 sample_heap (VRef 6) = VRef 6
  ∧ sample_heap !! 6 = Some (mkObject false [] (Some 1))
  ∧ (∀ tok sc uw,
       sample_heap !! 6 ≠ Some (marker_object 1 (tokenizedDependency tok sc uw)))
  ∧ ¬ (∀ U h v,
         getInjectionPoint U h v = v →
         v = VNull
         ∨ ∃ r tok sc uw,
             v = VRef r
             ∧ h !! r = Some (marker_object U (tokenizedDependency tok sc uw))).
Proof.
  assert (Hret : getInjectionPoint 1 sample_heap (VRef 6) = VRef 6)
    by (vm_compute; reflexivity).
  assert (Hobj : sample_heap !! 6 = Some (mkObject false [] (Some 1)))
    by (vm_compute; reflexivity).
  split; [exact Hret|]. split; [exact Hobj|]. split.
  - intros tok sc uw. rewrite Hobj. intros Heq. discriminate Heq.
  - intros Hall.
    destruct (Hall 1 sample_heap (VRef 6) Hret)
      as [Hnull|(r & tok & sc & uw & Hv & Hr)]; [discriminate Hnull|].
    injection Hv as <-. rewrite Hobj in Hr. discriminate Hr.
Qed.

(** C8, amended: [getInjectionPoint] hands back its argument exactly when
    the argument is an instance of the class [UnresolvedDependency], that is
    an object with [UnresolvedDependency.prototype] on its prototype chain,
    and [null] for every other value.  Every marker is such an instance
    when [tokenizedDependency] makes it, and no longer once its prototype is
    taken away.  No primitive is, nor [undefined], nor an object without
    prototype, nor a plain object that carries the three properties of a
    marker: the properties are never looked at.  On a chain without cycle
    the answer is that of the whole chain. *)
Theorem getInjectionPoint_recognises_instances (U : nat) (h : Heap)
    (v : value) :
  (∀ r, v = VRef r →
     (getInjectionPoint U h v = v ↔ U ∈ prototype_chain h (size h) r))
  ∧ (∀ r n, v = VRef r → size h ≤ n → NoDup (r :: prototype_chain h n r) →
       (getInjectionPoint U h v = v ↔ U ∈ prototype_chain h n r))
  ∧ ((∀ r, v = VRef r → U ∉ prototype_chain h (size h) r) →
     getInjectionPoint U h v = VNull)
  ∧ (∀ tok sc uw,
       let m := (new_UnresolvedDependency U (tokenizedDependency tok sc uw) h).1 in
       let h' := (new_UnresolvedDependency U (tokenizedDependency tok sc uw) h).2 in
       getInjectionPoint U h' m = m ∧ m ≠ VNull
       ∧ (∀ r o, h !! r = Some o → h' !! r = Some o)
       ∧ (∃ r, m = VRef r ∧ h !! r = None
               ∧ h' !! r
                 = Some (marker_object U (tokenizedDependency tok sc uw)))
       ∧ getInjectionPoint U (setPrototypeOf m None h') m = VNull)
  ∧ (∀ r O m proto,
       v = VRef r → h !! r = Some (lookalike O m) → O ≠ U →
       h !! O = Some proto → prototype proto = None →
       getInjectionPoint U h v = VNull)
  ∧ (∀ r o,
       v = VRef r → h !! r = Some o → prototype o = None →
       getInjectionPoint U h v = VNull).
Proof.
  assert (Hiff : ∀ r, getInjectionPoint U h (VRef r) = VRef r
                      ↔ U ∈ prototype_chain h (size h) r).
  { intros r. rewrite getInjectionPoint_unfold.
    destruct (decide _) as [Hin|Hin]; [done|]. split; [discriminate|done]. }
  split; [|split; [|split; [|split; [|split]]]].
  - intros r ->. apply Hiff.
  - intros r n -> Hn Hnd. rewrite Hiff.
    by rewrite (prototype_chain_complete h n r Hn Hnd).
  - intros Hno. rewrite getInjectionPoint_unfold. destruct v; try done.
    destruct (decide _) as [Hin|Hin]; [|done]. by destruct (Hno r eq_refl).
  - intros tok sc uw. cbv zeta. unfold new_UnresolvedDependency.
    destruct (new_object_spec (marker_object U (tokenizedDependency tok sc uw)) h)
      as (r & -> & Hfresh). cbn [fst snd].
    split; [|split; [discriminate|split; [|split]]].
    + unfold getInjectionPoint.
      rewrite (instanceof_direct U _ r
                 (marker_object U (tokenizedDependency tok sc uw))); [done| |done].
      by rewrite lookup_insert_eq.
    + intros r' o Hr'. rewrite lookup_insert_ne; [done|]. intros <-. congruence.
    + exists r. split; [done|]. split; [done|]. by rewrite lookup_insert_eq.
    + apply (getInjectionPoint_no_prototype U _ r
               (mkObject false
                  (marker_properties (tokenizedDependency tok sc uw)) None));
        [|reflexivity].
      simpl. by rewrite lookup_alter_eq, lookup_insert_eq.
  - intros r O m proto -> Hr HO HOh Hproto.
    rewrite getInjectionPoint_unfold. destruct (decide _) as [Hin|Hin]; [|done].
    exfalso. destruct (heap_inhabited h r _ Hr) as [n Hn]. rewrite Hn in Hin.
    simpl in Hin. rewrite Hr in Hin. simpl in Hin.
    apply elem_of_cons in Hin as [->|Hin]; [done|].
    destruct n as [|n]; simpl in Hin; [by apply elem_of_nil in Hin|].
    rewrite HOh in Hin. simpl in Hin. rewrite Hproto in Hin.
    by apply elem_of_nil in Hin.
  - intros r o -> Hr Hproto. by eapply getInjectionPoint_no_prototype.
Qed.

Lemma getInjectionPoint_recognises_instances_witness :
  sample_heap !! 4 = Some (marker_object 1 sample_marker)
  ∧ getInjectionPoint 1 sample_heap (VRef 4) = VRef 4
  ∧ sample_heap !! 5 = Some (lookalike 0 sample_marker)
  ∧ getInjectionPoint 1 sample_heap (VRef 5) = VNull.
Proof.
  assert (H4 : sample_heap !! 4 = Some (marker_object 1 sample_marker))
    by (vm_compute; reflexivity).
  assert (H5 : sample_heap !! 5 = Some (lookalike 0 sample_marker))
    by (vm_compute; reflexivity).
  assert (H0 : sample_heap !! 0 = Some (mkObject false [] None))
    by (vm_compute; reflexivity).
  split; [exact H4|]. split; [|split; [exact H5|]].
  - apply (proj1 (getInjectionPoint_recognises_instances 1 sample_heap (VRef 4))
             4 eq_refl).
    vm_compute. left.
  - apply (proj1 (proj2 (proj2 (proj2 (proj2
             (getInjectionPoint_recognises_instances 1 sample_heap (VRef 5))))))
             5 0 sample_marker (mkObject false [] None) eq_refl H5).
    + intros Heq. discriminate Heq.
    + exact H0.
    + reflexivity.
Defined.

End ModulesSpec.

(** ** The dev-stable global cache *)
Module DevStableSpec.
Import Dependencies DevStableConcern.

Definition fullKey (key : string) : string := VLA_DEV_STABLE_PREFIX +:+ key.

Lemma fullKey_inj k1 k2 : fullKey k1 = fullKey k2 → k1 = k2.
Proof. unfold fullKey. apply (inj (String.app VLA_DEV_STABLE_PREFIX)). Qed.

Lemma isDevStableEnabled_iff e :
  isDevStableEnabled e = true
  ↔ VLA_DEV_STABLE e = Some "1" ∨ NODE_ENV e ≠ Some "production".
Proof.
  unfold isDevStableEnabled. case_bool_decide as H1.
  - split; auto.
  - rewrite bool_decide_eq_true. split; [auto|]. by intros [?|?].
Qed.

Section Enabled.

Variable p : Process.
Hypothesis enabled : isDevStableEnabled (env p) = true.

Lemma devStable_hit key init w :
  globalThis p !! fullKey key = Some w → devStable key init p = (Returned w, p).
Proof.
  intros Hw. unfold devStable. rewrite enabled. simpl.
  fold (fullKey key). rewrite bool_decide_eq_true_2 by (by eexists).
  by rewrite Hw.
Qed.

Lemma devStable_miss key init v :
  globalThis p !! fullKey key = None →
  init tt = Returned v →
  devStable key init p
    = (Returned v,
       mkProcess (env p) (<[fullKey key := v]> (globalThis p))
                 (key :: inits p)).
Proof.
  intros Hw Hv. unfold devStable. rewrite enabled. simpl.
  fold (fullKey key). rewrite bool_decide_eq_false_2.
  - unfold call_init. rewrite Hv. simpl. by rewrite lookup_insert_eq.
  - rewrite Hw. by intros [? ?].
Qed.

Lemma devStable_miss_thrown key init e :
  globalThis p !! fullKey key = None →
  init tt = Thrown e →
  devStable key init p
    = (Thrown e, mkProcess (env p) (globalThis p) (key :: inits p)).
Proof.
  intros Hw Hv. unfold devStable. rewrite enabled. simpl.
  fold (fullKey key). rewrite bool_decide_eq_false_2.
  - unfold call_init. by rewrite Hv.
  - rewrite Hw. by intros [? ?].
Qed.

End Enabled.

Lemma devStable_disabled p key init :
  isDevStableEnabled (env p) = false →
  devStable key init p
    = (init tt, mkProcess (env p) (globalThis p) (key :: inits p)).
Proof. intros Hd. unfold devStable. by rewrite Hd. Qed.

(** The ways a call can go. *)
Lemma devStable_cases p key init :
  (isDevStableEnabled (env p) = true
   ∧ ∃ w, globalThis p !! fullKey key = Some w
          ∧ devStable key init p = (Returned w, p))
  ∨ (isDevStableEnabled (env p) = true
     ∧ globalThis p !! fullKey key = None
     ∧ ∃ v, init tt = Returned v
            ∧ devStable key init p
              = (Returned v,
                 mkProcess (env p) (<[fullKey key := v]> (globalThis p))
                           (key :: inits p)))
  ∨ (isDevStableEnabled (env p) = true
     ∧ globalThis p !! fullKey key = None
     ∧ ∃ e, init tt = Thrown e
            ∧ devStable key init p
              = (Thrown e, mkProcess (env p) (globalThis p) (key :: inits p)))
  ∨ (isDevStableEnabled (env p) = false
     ∧ devStable key init p
       = (init tt, mkProcess (env p) (globalThis p) (key :: inits p))).
Proof.
  destruct (isDevStableEnabled (env p)) eqn:He.
  - destruct (globalThis p !! fullKey key) as [w|] eqn:Hw.
    + left. split; [done|]. exists w. split; [done|]. by apply devStable_hit.
    + destruct (init tt) as [v|e] eqn:Hi.
      * right. left. do 2 (split; [done|]). exists v. split; [done|].
        by apply devStable_miss.
      * right. right. left. do 2 (split; [done|]). exists e. split; [done|].
        by apply devStable_miss_thrown.
  - right. right. right. split; [done|]. by apply devStable_disabled.
Qed.

Ltac devStable_cases p key init :=
  let He := fresh "He" in
  let Hw := fresh "Hw" in
  let Hi := fresh "Hi" in
  let Hc := fresh "Hc" in
  let w := fresh "w" in
  destruct (devStable_cases p key init)
    as [(He & w & Hw & Hc)|[(He & Hw & w & Hi & Hc)|[(He & Hw & w & Hi & Hc)
        |(He & Hc)]]];
  rewrite Hc.

Lemma devStable_env p key init : env (devStable key init p).2 = env p.
Proof. by devStable_cases p key init. Qed.

(** A property once on [globalThis] stays, with its value. *)
Lemma devStable_keeps p key init fk w :
  globalThis p !! fk = Some w →
  globalThis (devStable key init p).2 !! fk = Some w.
Proof.
  intros Hfk. devStable_cases p key init; try done.
  simpl. rewrite lookup_insert_ne; [done|]. intros <-. congruence.
Qed.

Lemma devStable_all_cons key init rest p :
  devStable_all ((key, init) :: rest) p
    = ((devStable key init p).1 :: (devStable_all rest (devStable key init p).2).1,
       (devStable_all rest (devStable key init p).2).2).
Proof.
  simpl. destruct (devStable key init p) as [v p1]. simpl.
  by destruct (devStable_all rest p1).
Qed.

Lemma devStable_all_env calls p : env (devStable_all calls p).2 = env p.
Proof.
  revert p. induction calls as [|[key init] rest IH]; intros p; [done|].
  rewrite devStable_all_cons. simpl. by rewrite IH, devStable_env.
Qed.

Lemma devStable_all_keeps calls p fk w :
  globalThis p !! fk = Some w →
  globalThis (devStable_all calls p).2 !! fk = Some w.
Proof.
  revert p. induction calls as [|[key init] rest IH]; intros p Hfk; [done|].
  rewrite devStable_all_cons. simpl. by apply IH, devStable_keeps.
Qed.

Lemma init_count_cons k key e g l :
  init_count key (mkProcess e g (k :: l))
    = (if decide (k = key) then 1 else 0) + init_count key (mkProcess e g l).
Proof.
  unfold init_count. simpl. rewrite filter_cons.
  by destruct (decide (k = key)).
Qed.

Lemma init_count_other_key p k init key :
  k ≠ key →
  init_count key (devStable k init p).2 = init_count key p.
Proof.
  intros Hne. devStable_cases p k init; try done; simpl;
    rewrite init_count_cons, decide_False by done; done.
Qed.

(** Once the property exists, no series of calls runs [init] for the key. *)
Lemma init_count_stored calls p key w :
  isDevStableEnabled (env p) = true →
  globalThis p !! fullKey key = Some w →
  init_count key (devStable_all calls p).2 = init_count key p.
Proof.
  revert p. induction calls as [|[k init] rest IH]; intros p He Hw; [done|].
  rewrite devStable_all_cons. simpl.
  rewrite IH.
  - destruct (decide (k = key)) as [->|Hne].
    + by rewrite (devStable_hit p He key init w Hw).
    + by apply init_count_other_key.
  - by rewrite devStable_env.
  - by apply devStable_keeps.
Qed.

Lemma thrown_count_cons key k init rest c results :
  thrown_count key ((k, init) :: rest) (c :: results)
    = (match c with
       | Thrown _ => if decide (k = key) then 1 else 0
       | Returned _ => 0
       end) + thrown_count key rest results.
Proof. by destruct c. Qed.

(** Every run of [init] for a key but one belongs to a call that threw. *)
Lemma init_count_bound calls p key :
  isDevStableEnabled (env p) = true →
  init_count key (devStable_all calls p).2
    ≤ S (init_count key p + thrown_count key calls (devStable_all calls p).1).
Proof.
  revert p. induction calls as [|[k init] rest IH]; intros p He.
  { simpl. lia. }
  rewrite devStable_all_cons. cbn [fst snd]. rewrite thrown_count_cons.
  destruct (decide (k = key)) as [->|Hne].
  - destruct (devStable_cases p key init)
      as [(_ & w & Hw & Hc)|[(_ & Hw & v & Hi & Hc)|[(_ & Hw & e & Hi & Hc)
          |(Hd & _)]]]; [| | |congruence].
    + rewrite Hc. cbn [fst snd]. specialize (IH p He). lia.
    + rewrite Hc. cbn [fst snd].
      rewrite (init_count_stored rest _ key v).
      * rewrite init_count_cons, decide_True by done.
        unfold init_count. simpl. lia.
      * done.
      * simpl. by rewrite lookup_insert_eq.
    + rewrite Hc. cbn [fst snd].
      etrans; [apply IH; done|].
      rewrite init_count_cons, decide_True by done.
      unfold init_count. simpl. lia.
  - etrans; [apply IH; by rewrite devStable_env|].
    rewrite init_count_other_key by done.
    destruct ((devStable k init p).1); lia.
Qed.

(** No call of a series throws when no initializer does. *)
Lemma thrown_count_none calls p key :
  Forall (λ c, ∃ v, c.2 tt = Returned v) calls →
  thrown_count key calls (devStable_all calls p).1 = 0.
Proof.
  revert p. induction calls as [|[k init] rest IH]; intros p Hall; [done|].
  apply Forall_cons in Hall as [[v Hv] Hall]. simpl in Hv.
  rewrite devStable_all_cons. cbn [fst snd]. rewrite thrown_count_cons.
  rewrite IH by done.
  destruct (devStable_cases p k init)
    as [(_ & w & _ & Hc)|[(_ & _ & w & _ & Hc)|[(_ & _ & e & Hi & _)
        |(_ & Hc)]]]; [by rewrite Hc|by rewrite Hc|congruence|].
  rewrite Hc. cbn [fst]. by rewrite Hv.
Qed.

Definition dev_process : Process :=
  mkProcess (mkEnv None (Some "development")) ∅ [].

Definition prod_process : Process :=
  mkProcess (mkEnv None (Some "production")) ∅ [].




End DevStableSpec.

(** ** The kernel discovery chain *)
Module InvokeSpec.
Import KernelModel Invoke.

Lemma scoped_child g s :
  let k := (scoped g s).1 in
  let s1 := (scoped g s).2 in
  k_id k = next_ref s ∧ k_parent k = Some (k_id g)
  ∧ k_singletons k = k_singletons g
  ∧ own_bindings k s1 = ∅ ∧ invoke_cache k s1 = ∅
  ∧ next_ref s1 = S (next_ref s).
Proof.
  simpl. unfold own_bindings, invoke_cache. simpl.
  by rewrite !lookup_insert_eq.
Qed.

Lemma new_Kernel_empty s :
  let k := (new_Kernel s).1 in
  let s1 := (new_Kernel s).2 in
  k_id k = next_ref s ∧ k_parent k = None
  ∧ own_bindings k s1 = ∅ ∧ invoke_cache k s1 = ∅ ∧ singleton_cache k s1 = ∅.
Proof.
  simpl. unfold own_bindings, invoke_cache, singleton_cache. simpl.
  by rewrite !lookup_insert_eq.
Qed.

Lemma getInvokeKernel_from_fn rt fn :
  currentKernelFn rt = Some fn →
  getInvokeKernel rt
    = ((fn (store rt)).1,
       mkRuntime (fn (store rt)).2 (currentKernelFn rt) (als rt) (globalKernel rt)).
Proof.
  intros Hfn. unfold getInvokeKernel, getCurrentKernelFromFn. rewrite Hfn.
  by destruct (fn (store rt)).
Qed.

Lemma getInvokeKernel_from_als rt k :
  currentKernelFn rt = None → als rt = Some k → getInvokeKernel rt = (k, rt).
Proof.
  intros Hfn Hals. unfold getInvokeKernel, getCurrentKernelFromFn, getAlsKernel.
  by rewrite Hfn, Hals.
Qed.

Lemma getInvokeKernel_from_global rt g :
  currentKernelFn rt = None → als rt = None → globalKernel rt = Some g →
  getInvokeKernel rt = on_store rt (scoped g (store rt)).
Proof.
  intros Hfn Hals Hg.
  unfold getInvokeKernel, getCurrentKernelFromFn, getAlsKernel, getGlobalKernel.
  by rewrite Hfn, Hals, Hg.
Qed.

Lemma getInvokeKernel_fallback rt :
  currentKernelFn rt = None → als rt = None → globalKernel rt = None →
  getInvokeKernel rt = on_store rt (new_Kernel (store rt)).
Proof.
  intros Hfn Hals Hg.
  unfold getInvokeKernel, getCurrentKernelFromFn, getAlsKernel, getGlobalKernel.
  by rewrite Hfn, Hals, Hg.
Qed.

(** [getInvokeKernel] assigns none of the three module variables. *)
Lemma getInvokeKernel_keeps_variables rt :
  currentKernelFn (getInvokeKernel rt).2 = currentKernelFn rt
  ∧ als (getInvokeKernel rt).2 = als rt
  ∧ globalKernel (getInvokeKernel rt).2 = globalKernel rt.
Proof.
  destruct (currentKernelFn rt) as [fn|] eqn:Hfn.
  { by rewrite (getInvokeKernel_from_fn rt fn Hfn). }
  destruct (als rt) as [k|] eqn:Hals.
  { rewrite (getInvokeKernel_from_als rt k Hfn Hals). simpl. by rewrite Hfn, Hals. }
  destruct (globalKernel rt) as [g|] eqn:Hg.
  { by rewrite (getInvokeKernel_from_global rt g Hfn Hals Hg). }
  by rewrite (getInvokeKernel_fallback rt Hfn Hals Hg).
Qed.

(** C1: [getInvokeKernel] walks a fixed chain on every call.  (a) If a
    current-kernel function is set, its result is the answer.  (b) Else the
    kernel the AsyncLocalStorage carrier holds for the running call is the
    answer, and nothing is created.  (c) Else, if a global kernel was
    registered, the answer is a new [scoped()] child of it: its parent is
    the global kernel, it shares the global kernel's process-wide cache, it
    has nothing bound and nothing cached of its own, it is not the global
    kernel, and the next call makes another child.  (d) Else the answer is a
    new root kernel with nothing bound and nothing cached.  The call assigns
    none of the three variables the chain reads, so every call evaluates the
    chain anew; in particular, under [runWithKernel(k, ...)] and without a
    current-kernel function, the answer is [k]. *)
Theorem getInvokeKernel_precedence (rt : Runtime) :
  (∀ fn, currentKernelFn rt = Some fn →
     getInvokeKernel rt
       = ((fn (store rt)).1,
          mkRuntime (fn (store rt)).2 (currentKernelFn rt) (als rt)
                    (globalKernel rt)))
  ∧ (currentKernelFn rt = None → ∀ k, als rt = Some k →
     getInvokeKernel rt = (k, rt))
  ∧ (currentKernelFn rt = None → als rt = None →
     ∀ g, globalKernel rt = Some g →
       let k := (getInvokeKernel rt).1 in
       let rt1 := (getInvokeKernel rt).2 in
       (k, store rt1) = scoped g (store rt)
       ∧ k_parent k = Some (k_id g)
       ∧ k_singletons k = k_singletons g
       ∧ own_bindings k (store rt1) = ∅
       ∧ invoke_cache k (store rt1) = ∅
       ∧ (k_id g < next_ref (store rt) → k ≠ g)
       ∧ (getInvokeKernel rt1).1 ≠ k
       ∧ k_parent (getInvokeKernel rt1).1 = Some (k_id g))
  ∧ (currentKernelFn rt = None → als rt = None → globalKernel rt = None →
       let k := (getInvokeKernel rt).1 in
       let rt1 := (getInvokeKernel rt).2 in
       (k, store rt1) = new_Kernel (store rt)
       ∧ k_parent k = None
       ∧ own_bindings k (store rt1) = ∅
       ∧ invoke_cache k (store rt1) = ∅
       ∧ singleton_cache k (store rt1) = ∅)
  ∧ (currentKernelFn (getInvokeKernel rt).2 = currentKernelFn rt
     ∧ als (getInvokeKernel rt).2 = als rt
     ∧ globalKernel (getInvokeKernel rt).2 = globalKernel rt)
  ∧ (currentKernelFn rt = None → ∀ k,
       runWithKernel k getInvokeKernel rt = (k, rt)).
Proof.
  split; [apply getInvokeKernel_from_fn|].
  split; [intros Hfn k; by apply getInvokeKernel_from_als|].
  split; [|split; [|split; [apply getInvokeKernel_keeps_variables|]]];
    [| |intros Hfn k; unfold runWithKernel;
        rewrite (getInvokeKernel_from_als _ k) by done; by destruct rt].
  - intros Hfn Hals g Hg. cbv zeta.
    rewrite (getInvokeKernel_from_global rt g Hfn Hals Hg).
    pose proof (scoped_child g (store rt)) as (Hid & Hpar & Hsing & Hb & Hi & Hn).
    rewrite (getInvokeKernel_from_global _ g); [|done..].
    cbn [on_store fst snd store] in *.
    split; [by destruct (scoped g (store rt))|].
    repeat split; try done.
    + intros Hlt Heq. rewrite Heq in Hid. lia.
    + intros Heq. apply (f_equal k_id) in Heq. simpl in Heq. lia.
  - intros Hfn Hals Hg. cbv zeta.
    rewrite (getInvokeKernel_fallback rt Hfn Hals Hg).
    pose proof (new_Kernel_empty (store rt)) as (Hid & Hpar & Hb & Hi & Hs).
    cbn [on_store fst snd store] in *.
    split; [by destruct (new_Kernel (store rt))|]. done.
Qed.

Definition root_store : Store := (new_Kernel empty_store).2.
Definition root_kernel : Kernel := (new_Kernel empty_store).1.

Definition global_only : Runtime :=
  mkRuntime root_store None None (Some root_kernel).

Lemma getInvokeKernel_precedence_witness :
  (getInvokeKernel global_only).1 = mkKernel 2 1 (Some 0)
  ∧ (getInvokeKernel global_only).1 ≠ root_kernel
  ∧ (getInvokeKernel (getInvokeKernel global_only).2).1
      ≠ (getInvokeKernel global_only).1.
Proof.
  split; [reflexivity|].
  pose proof (proj1 (proj2 (proj2 (getInvokeKernel_precedence global_only)))
                eq_refl eq_refl root_kernel eq_refl) as H.
  cbv zeta in H. destruct H as (_ & _ & _ & _ & _ & Hne & Hnext & _).
  split; [apply Hne; vm_compute; lia | exact Hnext].
Defined.

End InvokeSpec.

(** ** The container: singletons are shared by a family *)
Module KernelSpec.
Import Types Dependencies KernelModel.

(** The entry of producer [p] in the process-wide cache [c]. *)
Definition entry (s : Store) (c : nat) (p : Producer) : option Resolved :=
  singletonCaches s !! c ≫= (λ m, m !! p).

Lemma singleton_cache_entry k s p :
  singleton_cache k s !! p = entry s (k_singletons k) p.
Proof.
  unfold singleton_cache, entry.
  by destruct (singletonCaches s !! k_singletons k).
Qed.

(** [s'] comes after [s]: the entries of the process-wide caches are still
    there, references were only handed out, and the only cache that may have
    come into being is [c0]. *)
Record grows (c0 : nat) (s s' : Store) : Prop := mkGrows {
  grows_entries : ∀ c p r, entry s c p = Some r → entry s' c p = Some r;
  grows_next : next_ref s ≤ next_ref s';
  grows_dom : ∀ c, is_Some (singletonCaches s' !! c) →
                   is_Some (singletonCaches s !! c) ∨ c = c0;
}.

Lemma grows_refl c0 s : grows c0 s s.
Proof. split; auto. Qed.

Lemma grows_trans c0 s1 s2 s3 :
  grows c0 s1 s2 → grows c0 s2 s3 → grows c0 s1 s3.
Proof.
  intros [E1 N1 D1] [E2 N2 D2]. split.
  - auto.
  - lia.
  - intros c Hc. destruct (D2 c Hc) as [H2| ->]; auto.
Qed.

(** A step that leaves the process-wide caches alone. *)
Lemma grows_same_caches c0 s s' :
  singletonCaches s' = singletonCaches s → next_ref s ≤ next_ref s' →
  grows c0 s s'.
Proof.
  intros Hc Hn. split; [|done|].
  - intros c p r. unfold entry. by rewrite Hc.
  - intros c. rewrite Hc. auto.
Qed.

Lemma entry_store_singleton k p r s c q :
  entry (store_singleton k p r s) c q
    = if decide (c = k_singletons k ∧ q = p) then Some r else entry s c q.
Proof.
  unfold entry, store_singleton. simpl.
  destruct (decide (c = k_singletons k)) as [->|Hc].
  - rewrite lookup_insert_eq. simpl.
    destruct (decide (q = p)) as [->|Hq].
    + rewrite lookup_insert_eq. by rewrite decide_True.
    + rewrite lookup_insert_ne by done. rewrite decide_False by (by intros [_ ?]).
      rewrite singleton_cache_entry. done.
  - rewrite lookup_insert_ne by done. by rewrite decide_False by (by intros [? _]).
Qed.

Lemma grows_store_singleton k p r s0 s :
  entry s0 (k_singletons k) p = None →
  grows (k_singletons k) s0 s →
  grows (k_singletons k) s0 (store_singleton k p r s).
Proof.
  intros Hmiss [E N D]. split.
  - intros c q r' Hr'. rewrite entry_store_singleton.
    destruct (decide _) as [[-> ->]|_]; [congruence|auto].
  - done.
  - intros c. unfold store_singleton. simpl.
    destruct (decide (c = k_singletons k)) as [->|Hc]; [auto|].
    rewrite lookup_insert_ne by done. auto.
Qed.

Section Program.

Variable program : gmap nat ClassDecl.

Section Scan.

Variable c0 : nat.
Variable rec : nat → option Scope → Store → Outcome Resolved.
Hypothesis rec_grows : ∀ x o s, grows c0 s (outcome_store (rec x o s)).

Lemma fill_fields_grows fs s :
  grows c0 s (outcome_store (fill_fields rec fs s)).
Proof.
  revert s. induction fs as [|[name f] rest IH]; intros s; [apply grows_refl|].
  destruct f as [m|v|r]; simpl.
  - pose proof (rec_grows (token m) (Some (scope m)) s) as Hrec.
    destruct (rec (token m) (Some (scope m)) s) as [r s1|e s1|s1]; simpl in *;
      [|done..].
    pose proof (IH s1) as Hrest.
    destruct (fill_fields rec rest s1) as [vs s2|e s2|s2]; simpl in *;
      by eapply grows_trans.
  - pose proof (IH s) as Hrest.
    by destruct (fill_fields rec rest s) as [vs s2|e s2|s2].
  - pose proof (IH s) as Hrest.
    by destruct (fill_fields rec rest s) as [vs s2|e s2|s2].
Qed.

Lemma construct_grows p s :
  grows c0 s (outcome_store (construct program rec p s)).
Proof.
  destruct p as [c|v]; simpl; [|apply grows_refl].
  destruct (program !! c) as [d|]; simpl; [|apply grows_refl].
  destruct (run_initializers (d_fields d)) as [e|raw]; simpl.
  { by apply grows_same_caches. }
  set (s1 := mkStore _ _ _ _ _ _).
  assert (H1 : grows c0 s s1) by (apply grows_same_caches; simpl; [done|lia]).
  pose proof (fill_fields_grows raw s1) as H2.
  destruct (fill_fields rec raw s1) as [vs s2|e s2|s2]; simpl in *.
  - eapply grows_trans; [exact H1|]. eapply grows_trans; [exact H2|].
    by apply grows_same_caches.
  - by eapply grows_trans.
  - by eapply grows_trans.
Qed.

End Scan.

Lemma resolve_grows fuel k x o s :
  grows (k_singletons k) s (outcome_store (resolve program fuel k x o s)).
Proof.
  revert x o s. induction fuel as [|n IH]; intros x o s; [apply grows_refl|].
  simpl.
  destruct (effective_lifecycle program k x o s) as [[| |]|]; simpl;
    [| | |apply grows_refl].
  - destruct (singleton_cache k s !! producer_for k x s) eqn:Hhit; simpl;
      [apply grows_refl|].
    pose proof (construct_grows (k_singletons k) (resolve program n k) IH
                  (producer_for k x s) s) as Hc.
    destruct (construct program (resolve program n k) (producer_for k x s) s)
      as [r s1|e s1|s1]; simpl in *; [|done..].
    apply grows_store_singleton; [|done].
    by rewrite <-singleton_cache_entry.
  - destruct (invoke_cache k s !! producer_for k x s); simpl;
      [apply grows_refl|].
    pose proof (construct_grows (k_singletons k) (resolve program n k) IH
                  (producer_for k x s) s) as Hc.
    destruct (construct program (resolve program n k) (producer_for k x s) s)
      as [r s1|e s1|s1]; simpl in *; [|done..].
    eapply grows_trans; [exact Hc|]. by apply grows_same_caches.
  - apply construct_grows, IH.
Qed.

(** A singleton resolution that returns leaves what it returned in the
    process-wide cache, under the producer. *)
Lemma resolve_singleton_cached fuel k x o s r s1 :
  effective_lifecycle program k x o s = Some SingletonScope →
  resolve program fuel k x o s = Done r s1 →
  entry s1 (k_singletons k) (producer_for k x s) = Some r.
Proof.
  intros Hl. destruct fuel as [|n]; [done|]. simpl. rewrite Hl.
  destruct (singleton_cache k s !! producer_for k x s) as [r0|] eqn:Hhit.
  - intros [= <- <-]. by rewrite <-singleton_cache_entry.
  - destruct (construct program (resolve program n k) (producer_for k x s) s)
      as [r1 s2|e s2|s2]; [|done..].
    intros [= <- <-]. rewrite entry_store_singleton. by rewrite decide_True.
Qed.

(** A cached singleton is handed out as it is; nothing is constructed and
    the store is left as it was. *)
Lemma resolve_singleton_hit fuel k x o s r :
  effective_lifecycle program k x o s = Some SingletonScope →
  entry s (k_singletons k) (producer_for k x s) = Some r →
  resolve program (S fuel) k x o s = Done r s.
Proof.
  intros Hl He. simpl. rewrite Hl. by rewrite singleton_cache_entry, He.
Qed.

(** Containers the host holds were handed out by [new Kernel()] or
    [scoped()]: their process-wide cache has been allocated. *)
Definition valid (k : Kernel) (s : Store) : Prop := k_singletons k < next_ref s.

Definition well_formed (s : Store) : Prop :=
  map_Forall (λ c _, c < next_ref s) (singletonCaches s).

Definition op_valid (o : Op) (s : Store) : Prop :=
  match o with
  | OpNew => True
  | OpScoped k | OpBind k _ _ _ | OpBindValue k _ _ _ | OpResolve _ k _ _ =>
      valid k s
  end.

(** One operation of the host on a container it holds. *)
Inductive step : Store → Store → Prop :=
| step_op o s : op_valid o s → step s (run_op program o s).

Lemma well_formed_lt s c :
  well_formed s → is_Some (singletonCaches s !! c) → c < next_ref s.
Proof. intros Hwf [m Hm]. exact (Hwf c m Hm). Qed.

Lemma grows_well_formed c0 s s' :
  c0 < next_ref s → well_formed s → grows c0 s s' → well_formed s'.
Proof.
  intros Hc0 Hwf [E N D] c m Hm.
  destruct (D c (ex_intro _ m Hm)) as [Hin| ->]; [|lia].
  pose proof (well_formed_lt s c Hwf Hin). lia.
Qed.

Lemma step_keeps s s' :
  well_formed s → step s s' →
  well_formed s' ∧ next_ref s ≤ next_ref s'
  ∧ ∀ c p r, entry s c p = Some r → entry s' c p = Some r.
Proof.
  intros Hwf Hstep. destruct Hstep as [o s Hv]. destruct o as [|k|k x impl sc|k x v sc|fuel k x o]; simpl in *.
  - split; [|split].
    + intros c m. simpl. intros Hm.
      destruct (decide (c = S (next_ref s))) as [->|Hc]; [lia|].
      rewrite lookup_insert_ne in Hm by done.
      pose proof (Hwf c m Hm). simpl in *. lia.
    + lia.
    + intros c p r. unfold entry. simpl. intros He.
      destruct (singletonCaches s !! c) as [m|] eqn:Hm; [|done].
      pose proof (Hwf c m Hm) as Hlt. simpl in Hlt.
      rewrite lookup_insert_ne by lia. by rewrite Hm.
  - split; [|split; [lia|done]].
    intros c m Hm. pose proof (Hwf c m Hm). simpl in *. lia.
  - split; [|split; [lia|done]].
    intros c m Hm. exact (Hwf c m Hm).
  - split; [|split; [lia|done]].
    intros c m Hm. exact (Hwf c m Hm).
  - pose proof (resolve_grows fuel k x o s) as Hg.
    split; [by eapply grows_well_formed|].
    destruct Hg as [E N D]. auto.
Qed.

Lemma steps_keep s s' :
  well_formed s → rtc step s s' →
  well_formed s' ∧ next_ref s ≤ next_ref s'
  ∧ ∀ c p r, entry s c p = Some r → entry s' c p = Some r.
Proof.
  intros Hwf Hsteps. induction Hsteps as [s|s1 s2 s3 H12 H23 IH]; [auto|].
  destruct (step_keeps s1 s2 Hwf H12) as (Hwf2 & N12 & E12).
  destruct (IH Hwf2) as (Hwf3 & N23 & E23).
  split; [done|]. split; [lia|auto].
Qed.

End Program.

(** ** A resolution constructs no class within its own construction

    A resolution on a container only ever asks that container, and what it
    constructs is decided by the classes, the bindings of the container and
    what the two caches of the container hold.  A construction of a class
    that reached a second construction of the same class would reach it
    again from there, and so on without end: such a resolution does not
    return. *)
Section Reentry.

Variable program : gmap nat ClassDecl.
Variable k : Kernel.

(** The cache a lifecycle reads, and the write that follows a miss. *)
Definition cached (l : Scope) (p : Producer) (s : Store) : option Resolved :=
  match l with
  | SingletonScope => singleton_cache k s !! p
  | InvokeScope => invoke_cache k s !! p
  | TransientScope => None
  end.

Definition remember (l : Scope) (p : Producer) (r : Resolved) (s : Store)
    : Store :=
  match l with
  | SingletonScope => store_singleton k p r s
  | InvokeScope => store_invoke k p r s
  | TransientScope => s
  end.

Lemma resolve_S n x o s :
  resolve program (S n) k x o s =
    match effective_lifecycle program k x o s with
    | None => Threw (ConfigurationError x) s
    | Some l =>
        match cached l (producer_for k x s) s with
        | Some r => Done r s
        | None =>
            match construct program (resolve program n k)
                    (producer_for k x s) s with
            | Done r s1 => Done r (remember l (producer_for k x s) r s1)
            | other => other
            end
        end
    end.
Proof.
  simpl. destruct (effective_lifecycle program k x o s) as [[| |]|]; try done.
  simpl. by destruct (construct _ _ _ _).
Qed.

(** How often class [c] has been constructed. *)
Definition built (c : nat) (s : Store) : nat :=
  length (filter (λ x, x = c) (constructions s)).

(** What container [k] sees of [s] it sees of [t] too: the same bindings,
    and every cached producer is still cached. *)
Record within (s t : Store) : Prop := mkWithin {
  within_bindings : own_bindings k s = own_bindings k t;
  within_cached : ∀ l p, is_Some (cached l p s) → is_Some (cached l p t);
}.

Definition alike (s t : Store) : Prop := within s t ∧ within t s.

Lemma within_refl s : within s s.
Proof. by split. Qed.

Lemma within_trans s t u : within s t → within t u → within s u.
Proof.
  intros [B1 C1] [B2 C2]. split; [congruence|]. intros l p H. auto.
Qed.

Lemma alike_refl s : alike s s.
Proof. split; apply within_refl. Qed.

Lemma alike_sym s t : alike s t → alike t s.
Proof. by intros [? ?]. Qed.

Lemma alike_trans s t u : alike s t → alike t u → alike s u.
Proof. intros [? ?] [? ?]. split; by eapply within_trans. Qed.

Lemma same_view s t :
  own_bindings k s = own_bindings k t →
  (∀ l p, cached l p s = cached l p t) →
  alike s t.
Proof.
  intros Hb Hc. split; split; try done; intros l p; by rewrite Hc.
Qed.

Lemma alike_log c s : alike s (log_construction c s).
Proof. apply same_view; [done|]. by intros []. Qed.

Lemma alike_allocate i s : alike s (allocate i s).2.
Proof. apply same_view; [done|]. by intros []. Qed.

Lemma alike_write ref i s : alike s (write_fields ref i s).
Proof. apply same_view; [done|]. by intros []. Qed.

Lemma built_log c c' s :
  built c' (log_construction c s)
    = (if decide (c = c') then 1 else 0) + built c' s.
Proof.
  unfold built. simpl. rewrite filter_cons. by destruct (decide (c = c')).
Qed.

Lemma singleton_cache_store p r s :
  singleton_cache k (store_singleton k p r s) = <[p := r]> (singleton_cache k s).
Proof. unfold singleton_cache at 1. simpl. by rewrite lookup_insert_eq. Qed.

Lemma invoke_cache_store p r s :
  invoke_cache k (store_invoke k p r s) = <[p := r]> (invoke_cache k s).
Proof. unfold invoke_cache at 1. simpl. by rewrite lookup_insert_eq. Qed.

Lemma cached_remember l p r s l' p' :
  cached l' p' (remember l p r s)
    = if decide (l' = l ∧ p' = p ∧ l ≠ TransientScope) then Some r
      else cached l' p' s.
Proof.
  destruct l, l'; simpl;
    rewrite ?singleton_cache_store, ?invoke_cache_store;
    try done;
    try (rewrite decide_False by (intros (? & ? & ?); done); done).
  - destruct (decide (p' = p)) as [->|Hp].
    + rewrite lookup_insert_eq. by rewrite decide_True.
    + rewrite lookup_insert_ne by done.
      by rewrite decide_False by (by intros (? & ? & ?)).
  - destruct (decide (p' = p)) as [->|Hp].
    + rewrite lookup_insert_eq. by rewrite decide_True.
    + rewrite lookup_insert_ne by done.
      by rewrite decide_False by (by intros (? & ? & ?)).
Qed.

Lemma within_remember l p r s : within s (remember l p r s).
Proof.
  split; [by destruct l|]. intros l' p' Hs. rewrite cached_remember.
  by destruct (decide _).
Qed.

Lemma built_remember c l p r s : built c (remember l p r s) = built c s.
Proof. by destruct l. Qed.

Lemma same_request s t x o :
  own_bindings k s = own_bindings k t →
  producer_for k x s = producer_for k x t
  ∧ effective_lifecycle program k x o s = effective_lifecycle program k x o t.
Proof.
  intros Hb. unfold producer_for, effective_lifecycle. by rewrite Hb.
Qed.

(** *** What a returning run went through *)

Lemma resolve_Done n x o s r s' :
  resolve program n k x o s = Done r s' →
  ∃ n' l,
    n = S n' ∧ effective_lifecycle program k x o s = Some l
    ∧ ((cached l (producer_for k x s) s = Some r ∧ s' = s)
       ∨ (cached l (producer_for k x s) s = None
          ∧ ∃ s1, construct program (resolve program n' k)
                    (producer_for k x s) s = Done r s1
                  ∧ s' = remember l (producer_for k x s) r s1)).
Proof.
  destruct n as [|n']; [done|]. rewrite resolve_S.
  destruct (effective_lifecycle program k x o s) as [l|]; [|done].
  intros Hres. exists n', l. split; [done|]. split; [done|].
  destruct (cached l (producer_for k x s) s) as [r0|].
  - left. by injection Hres as <- <-.
  - right. split; [done|].
    destruct (construct _ _ _ _) as [r1 s1|e s1|s1]; [|done..].
    injection Hres as <- <-. by exists s1.
Qed.

Section Scan.

Variable rec : nat → option Scope → Store → Outcome Resolved.

Lemma construct_Done rec' c s r s' :
  construct program rec' (PClass c) s = Done r s' →
  ∃ d raw vs sb,
    program !! c = Some d
    ∧ run_initializers (d_fields d) = inr raw
    ∧ fill_fields rec' raw
        (allocate (mkInstance c raw) (log_construction c s)).2 = Done vs sb
    ∧ s' = write_fields (next_ref s) (mkInstance c vs) sb.
Proof.
  simpl. destruct (program !! c) as [d|] eqn:Hd; [|done].
  destruct (run_initializers (d_fields d)) as [e|raw] eqn:Hraw; [done|].
  simpl.
  destruct (fill_fields rec' raw _) as [vs sb|e sb|sb] eqn:Hfill; [|done..].
  intros [= <- <-]. exists d, raw, vs, sb.
  split; [done|]. split; [done|]. split; [exact Hfill|done].
Qed.

Lemma fill_fields_Done_marker name m rest s vs s' :
  fill_fields rec ((name, FMarker m) :: rest) s = Done vs s' →
  ∃ r sa vs',
    rec (token m) (Some (scope m)) s = Done r sa
    ∧ fill_fields rec rest sa = Done vs' s'.
Proof.
  simpl. destruct (rec (token m) (Some (scope m)) s) as [r sa|e sa|sa];
    [|done..].
  destruct (fill_fields rec rest sa) as [vs' sb|e sb|sb] eqn:Hrest; [|done..].
  intros [= <- <-]. by exists r, sa, vs'.
Qed.

Lemma fill_fields_Done_other name f rest s vs s' :
  (∀ m, f ≠ FMarker m) →
  fill_fields rec ((name, f) :: rest) s = Done vs s' →
  ∃ vs', fill_fields rec rest s = Done vs' s'.
Proof.
  intros Hf. destruct f as [m|v|r]; [by destruct (Hf m)| |]; simpl;
    destruct (fill_fields rec rest s) as [vs' sb|e sb|sb]; try done;
    intros [= <- <-]; by exists vs'.
Qed.

End Scan.

(** *** A run only adds: to the caches and to the constructions *)

Definition adds (s s' : Store) : Prop :=
  within s s' ∧ ∀ c, built c s ≤ built c s'.

Lemma adds_refl s : adds s s.
Proof. split; [apply within_refl|done]. Qed.

Lemma adds_trans s t u : adds s t → adds t u → adds s u.
Proof.
  intros [W1 B1] [W2 B2]. split; [by eapply within_trans|].
  intros c. specialize (B1 c). specialize (B2 c). lia.
Qed.

Lemma adds_alike s t :
  alike s t → (∀ c, built c s ≤ built c t) → adds s t.
Proof. by intros [? _] ?. Qed.

Lemma adds_prepare c i s : adds s (allocate i (log_construction c s)).2.
Proof.
  split.
  - eapply within_trans; [apply alike_log|apply alike_allocate].
  - intros c'. change (built c' (allocate i (log_construction c s)).2)
      with (built c' (log_construction c s)).
    rewrite built_log. lia.
Qed.

Lemma built_prepare c i s :
  built c (allocate i (log_construction c s)).2 = S (built c s).
Proof.
  change (built c (allocate i (log_construction c s)).2)
    with (built c (log_construction c s)).
  rewrite built_log. by rewrite decide_True.
Qed.

Lemma built_prepare_other c c' i s :
  c ≠ c' → built c' (allocate i (log_construction c s)).2 = built c' s.
Proof.
  intros Hne.
  change (built c' (allocate i (log_construction c s)).2)
    with (built c' (log_construction c s)).
  rewrite built_log. by rewrite decide_False.
Qed.

Lemma alike_prepare c i s : alike s (allocate i (log_construction c s)).2.
Proof. eapply alike_trans; [apply alike_log|apply alike_allocate]. Qed.

Lemma adds_write ref i s : adds s (write_fields ref i s).
Proof. split; [apply alike_write|done]. Qed.

Lemma adds_remember l p r s : adds s (remember l p r s).
Proof.
  split; [apply within_remember|]. intros c. by rewrite built_remember.
Qed.

Definition resolver := nat → option Scope → Store → Outcome Resolved.

Definition growing (rec : resolver) : Prop :=
  ∀ x o s r s', rec x o s = Done r s' → adds s s'.

Lemma fill_fields_adds rec fs s vs s' :
  growing rec → fill_fields rec fs s = Done vs s' → adds s s'.
Proof.
  intros Hrec. revert s vs s'.
  induction fs as [|[name f] rest IH]; intros s vs s' Hfill.
  { injection Hfill as <- <-. apply adds_refl. }
  destruct f as [m|v|r].
  - apply fill_fields_Done_marker in Hfill as (r & sa & vs' & Hr & Hrest).
    eapply adds_trans; [by eapply Hrec|by eapply IH].
  - apply fill_fields_Done_other in Hfill as [vs' Hrest]; [|done].
    by eapply IH.
  - apply fill_fields_Done_other in Hfill as [vs' Hrest]; [|done].
    by eapply IH.
Qed.

Lemma construct_adds rec p s r s' :
  growing rec → construct program rec p s = Done r s' → adds s s'.
Proof.
  intros Hrec Hc. destruct p as [c|v].
  - apply construct_Done in Hc as (d & raw & vs & sb & _ & _ & Hfill & ->).
    eapply adds_trans; [apply adds_prepare|].
    eapply adds_trans; [by eapply fill_fields_adds|apply adds_write].
  - injection Hc as <- <-. apply adds_refl.
Qed.

Lemma resolve_adds n : growing (resolve program n k).
Proof.
  induction n as [|n IH]; intros x o s r s' Hres; [done|].
  apply resolve_Done in Hres
    as (n' & l & [= <-] & _ & [[_ ->]|(_ & s1 & Hc & ->)]).
  - apply adds_refl.
  - eapply adds_trans; [by eapply construct_adds|apply adds_remember].
Qed.

(** Constructing a class is one construction of it at the least. *)
Lemma construct_builds rec c s r s' :
  growing rec → construct program rec (PClass c) s = Done r s' →
  built c s < built c s'.
Proof.
  intros Hrec Hc.
  apply construct_Done in Hc as (d & raw & vs & sb & _ & _ & Hfill & ->).
  pose proof (fill_fields_adds _ _ _ _ _ Hrec Hfill) as [_ Hb].
  specialize (Hb c). rewrite built_prepare in Hb.
  change (built c (write_fields (next_ref s) (mkInstance c vs) sb))
    with (built c sb). lia.
Qed.

(** *** Asked again where everything it cached is cached, a run caches
    nothing *)

Definition settled (rec : resolver) : Prop :=
  ∀ x o s r s', rec x o s = Done r s' →
  ∀ n2 t r2 t', within s' t → resolve program n2 k x o t = Done r2 t' →
                alike t t'.

Lemma fill_fields_settled rec fs s vs s' :
  growing rec → settled rec →
  fill_fields rec fs s = Done vs s' →
  ∀ n2 t vs2 t',
    within s' t → fill_fields (resolve program n2 k) fs t = Done vs2 t' →
    alike t t'.
Proof.
  intros Hgrow Hrec. revert s vs s'.
  induction fs as [|[name f] rest IH]; intros s vs s' Hfill n2 t vs2 t' Hw Hfill2.
  { injection Hfill2 as <- <-. apply alike_refl. }
  destruct f as [m|v|r].
  - apply fill_fields_Done_marker in Hfill as (r & sa & vs' & Hr & Hrest).
    apply fill_fields_Done_marker in Hfill2 as (r2 & ta & vs2' & Hr2 & Hrest2).
    pose proof (fill_fields_adds _ _ _ _ _ Hgrow Hrest) as [Hwa _].
    assert (Ha : alike t ta).
    { eapply (Hrec _ _ _ _ _ Hr n2 t r2 ta); [|done].
      by eapply within_trans. }
    eapply alike_trans; [exact Ha|].
    eapply (IH _ _ _ Hrest n2 ta vs2' t'); [|done].
    eapply within_trans; [exact Hw|apply Ha].
  - apply fill_fields_Done_other in Hfill as [vs' Hrest]; [|done].
    apply fill_fields_Done_other in Hfill2 as [vs2' Hrest2]; [|done].
    by eapply IH.
  - apply fill_fields_Done_other in Hfill as [vs' Hrest]; [|done].
    apply fill_fields_Done_other in Hfill2 as [vs2' Hrest2]; [|done].
    by eapply IH.
Qed.

Lemma construct_settled rec p s r s' :
  growing rec → settled rec →
  construct program rec p s = Done r s' →
  ∀ n2 t r2 t',
    within s' t →
    construct program (resolve program n2 k) p t = Done r2 t' →
    alike t t'.
Proof.
  intros Hgrow Hrec Hc n2 t r2 t' Hw Hc2. destruct p as [c|v].
  - apply construct_Done in Hc as (d & raw & vs & sb & Hd & Hraw & Hfill & ->).
    apply construct_Done in Hc2
      as (d2 & raw2 & vs2 & tb & Hd2 & Hraw2 & Hfill2 & ->).
    assert (d2 = d) as -> by congruence.
    assert (raw2 = raw) as -> by congruence.
    eapply alike_trans; [apply (alike_prepare c (mkInstance c raw) t)|].
    eapply alike_trans; [|apply alike_write].
    eapply (fill_fields_settled _ _ _ _ _ Hgrow Hrec Hfill); [|exact Hfill2].
    eapply within_trans; [apply alike_write|].
    eapply within_trans; [exact Hw|apply alike_prepare].
  - injection Hc2 as <- <-. apply alike_refl.
Qed.

Lemma resolve_settled n : settled (resolve program n k).
Proof.
  induction n as [|n IH]; intros x o s r s' Hres n2 t r2 t' Hw Hres2; [done|].
  pose proof (resolve_adds _ _ _ _ _ _ Hres) as [Hss' _].
  assert (Hb : own_bindings k s = own_bindings k t).
  { etrans; [apply Hss'|apply Hw]. }
  destruct (same_request s t x o Hb) as [Hp Hl].
  apply resolve_Done in Hres
    as (n' & l & [= <-] & Hlife & [[Hhit ->]|(Hmiss & s1 & Hc & ->)]);
    apply resolve_Done in Hres2
      as (n2' & l2 & -> & Hlife2 & [[Hhit2 ->]|(Hmiss2 & t1 & Hc2 & ->)]);
    try apply alike_refl;
    assert (l2 = l) as -> by congruence; rewrite <-Hp in *.
  - exfalso. destruct (within_cached _ _ Hw l (producer_for k x s)) as [? Ht];
      [by eexists|congruence].
  - destruct (decide (l = TransientScope)) as [->|Hl'].
    + eapply (construct_settled _ _ _ _ _ (resolve_adds n) IH Hc n2' t r2 t1);
        [exact Hw|exact Hc2].
    + exfalso.
      destruct (within_cached _ _ Hw l (producer_for k x s)) as [? Ht];
        [|congruence].
      rewrite cached_remember. rewrite decide_True by done. by eexists.
Qed.

(** *** A class that was not cached and is, has been constructed *)

Definition earning (rec : resolver) : Prop :=
  ∀ x o s r s' l c,
    rec x o s = Done r s' →
    cached l (PClass c) s = None → is_Some (cached l (PClass c) s') →
    built c s < built c s'.

Lemma fill_fields_earns rec fs s vs s' l c :
  growing rec → earning rec →
  fill_fields rec fs s = Done vs s' →
  cached l (PClass c) s = None → is_Some (cached l (PClass c) s') →
  built c s < built c s'.
Proof.
  intros Hgrow Hrec. revert s vs s'.
  induction fs as [|[name f] rest IH]; intros s vs s' Hfill Hnone Hsome.
  { injection Hfill as <- <-. rewrite Hnone in Hsome. by destruct Hsome. }
  destruct f as [m|v|r].
  - apply fill_fields_Done_marker in Hfill as (r & sa & vs' & Hr & Hrest).
    pose proof (Hgrow _ _ _ _ _ Hr) as [_ Hb1].
    pose proof (fill_fields_adds _ _ _ _ _ Hgrow Hrest) as [_ Hb2].
    specialize (Hb1 c). specialize (Hb2 c).
    destruct (cached l (PClass c) sa) as [r0|] eqn:Hsa.
    + assert (built c s < built c sa); [|lia].
      eapply Hrec; [exact Hr|done|]. rewrite Hsa. by eexists.
    + assert (built c sa < built c s'); [|lia]. by eapply IH.
  - apply fill_fields_Done_other in Hfill as [vs' Hrest]; [|done].
    by eapply IH.
  - apply fill_fields_Done_other in Hfill as [vs' Hrest]; [|done].
    by eapply IH.
Qed.

Lemma construct_earns rec p s r s' l c :
  growing rec → earning rec →
  construct program rec p s = Done r s' →
  cached l (PClass c) s = None → is_Some (cached l (PClass c) s') →
  built c s < built c s'.
Proof.
  intros Hgrow Hrec Hc Hnone Hsome. destruct p as [c1|v].
  - apply construct_Done in Hc as (d & raw & vs & sb & _ & _ & Hfill & ->).
    assert (built c (allocate (mkInstance c1 raw) (log_construction c1 s)).2
            < built c sb).
    { apply (fill_fields_earns _ _ _ _ _ l c Hgrow Hrec Hfill).
      - by destruct l.
      - by destruct l. }
    pose proof (adds_prepare c1 (mkInstance c1 raw) s) as [_ Hb].
    specialize (Hb c).
    change (built c (write_fields (next_ref s) (mkInstance c1 vs) sb))
      with (built c sb). lia.
  - injection Hc as <- <-. rewrite Hnone in Hsome. by destruct Hsome.
Qed.

Lemma resolve_earns n : earning (resolve program n k).
Proof.
  induction n as [|n IH]; intros x o s r s' l c Hres Hnone Hsome; [done|].
  apply resolve_Done in Hres
    as (n' & l0 & [= <-] & _ & [[_ ->]|(_ & s1 & Hc & ->)]).
  - rewrite Hnone in Hsome. by destruct Hsome.
  - rewrite cached_remember in Hsome. rewrite built_remember.
    destruct (decide _) as [(-> & Hp & _)|_].
    + rewrite <-Hp in Hc.
      by eapply construct_builds; [apply resolve_adds|].
    + by eapply construct_earns; [apply resolve_adds|..].
Qed.

(** *** The induction on the depth of recursion *)

(** A run that constructs class [c] goes through a first construction of
    it, begun in a store [t]; asked again in a store alike to [t], it
    constructs [c] again. *)
Definition reenters (c n : nat) (s s' : Store)
    (again : nat → Store → Store → Prop) : Prop :=
  ∃ m t,
    m < n ∧ within s t ∧ within t s'
    ∧ (∃ r0 t',
         construct program (resolve program m k) (PClass c) t = Done r0 t')
    ∧ ∀ n2 u u', alike u t → again n2 u u' → built c u < built c u'.

Definition resolve_again (x : nat) (o : option Scope)
    : nat → Store → Store → Prop :=
  λ n2 u u', ∃ r2, resolve program n2 k x o u = Done r2 u'.

Definition fill_again (fs : list (string * FieldValue))
    : nat → Store → Store → Prop :=
  λ n2 u u', ∃ vs2, fill_fields (resolve program n2 k) fs u = Done vs2 u'.

Definition replays (n : nat) : Prop :=
  ∀ c x o s r s',
    resolve program n k x o s = Done r s' → built c s < built c s' →
    reenters c n s s' (resolve_again x o).

(** The construction of a class constructs the class once. *)
Definition once (n : nat) : Prop :=
  ∀ c s r s',
    construct program (resolve program n k) (PClass c) s = Done r s' →
    built c s' = S (built c s).

Lemma fill_fields_replays n c fs s vs s' :
  replays n →
  fill_fields (resolve program n k) fs s = Done vs s' →
  built c s < built c s' →
  reenters c n s s' (fill_again fs).
Proof.
  intros Hrep. revert s vs s'.
  induction fs as [|[name f] rest IH]; intros s vs s' Hfill Hlt.
  { injection Hfill as <- <-. lia. }
  destruct f as [mk|v|r0].
  - apply fill_fields_Done_marker in Hfill as (r & sa & vs' & Hr & Hrest).
    pose proof (resolve_adds _ _ _ _ _ _ Hr) as [Hssa Hb1].
    pose proof (fill_fields_adds _ _ _ _ _ (resolve_adds n) Hrest)
      as [Hsas' Hb2].
    destruct (decide (built c s < built c sa)) as [Hfirst|Hlater].
    + destruct (Hrep _ _ _ _ _ _ Hr Hfirst)
        as (m & t & Hm & Hst & Hts & Hcon & Hag).
      exists m, t. split; [done|]. split; [done|].
      split; [by eapply within_trans|]. split; [done|].
      intros n2 u u' Hu [vs2 Hfill2].
      apply fill_fields_Done_marker in Hfill2
        as (r2 & ua & vs2' & Hr2 & Hrest2).
      pose proof (fill_fields_adds _ _ _ _ _ (resolve_adds n2) Hrest2)
        as [_ Hb3].
      specialize (Hb3 c).
      assert (built c u < built c ua); [|lia].
      apply (Hag n2 u ua Hu). by exists r2.
    + assert (Hrestlt : built c sa < built c s').
      { specialize (Hb1 c). lia. }
      destruct (IH _ _ _ Hrest Hrestlt)
        as (m & t & Hm & Hst & Hts & Hcon & Hag).
      exists m, t. split; [done|]. split; [by eapply within_trans|].
      split; [done|]. split; [done|].
      intros n2 u u' Hu [vs2 Hfill2].
      apply fill_fields_Done_marker in Hfill2
        as (r2 & ua & vs2' & Hr2 & Hrest2).
      pose proof (resolve_adds _ _ _ _ _ _ Hr2) as [_ Hb3].
      specialize (Hb3 c).
      assert (Hua : alike u ua).
      { eapply (resolve_settled n _ _ _ _ _ Hr n2 u r2 ua); [|done].
        eapply within_trans; [exact Hst|apply Hu]. }
      assert (built c ua < built c u'); [|lia].
      apply (Hag n2 ua u').
      * eapply alike_trans; [apply alike_sym, Hua|exact Hu].
      * by exists vs2'.
  - apply fill_fields_Done_other in Hfill as [vs' Hrest]; [|done].
    destruct (IH _ _ _ Hrest Hlt) as (m & t & Hm & Hst & Hts & Hcon & Hag).
    exists m, t. do 4 (split; [done|]).
    intros n2 u u' Hu [vs2 Hfill2].
    apply fill_fields_Done_other in Hfill2 as [vs2' Hrest2]; [|done].
    apply (Hag n2 u u' Hu). by exists vs2'.
  - apply fill_fields_Done_other in Hfill as [vs' Hrest]; [|done].
    destruct (IH _ _ _ Hrest Hlt) as (m & t & Hm & Hst & Hts & Hcon & Hag).
    exists m, t. do 4 (split; [done|]).
    intros n2 u u' Hu [vs2 Hfill2].
    apply fill_fields_Done_other in Hfill2 as [vs2' Hrest2]; [|done].
    apply (Hag n2 u u' Hu). by exists vs2'.
Qed.

Lemma replays_0 : replays 0.
Proof. by intros c x o s r s' Hres. Qed.

Lemma replays_S n : replays n → once n → replays (S n).
Proof.
  intros Hrep Honce c x o s r s' Hres Hlt.
  pose proof (resolve_adds _ _ _ _ _ _ Hres) as [Hss' _].
  apply resolve_Done in Hres
    as (n' & l & [= <-] & Hlife & [[_ ->]|(Hmiss & s1 & Hc & ->)]); [lia|].
  rewrite built_remember in Hlt.
  destruct (producer_for k x s) as [c1|v] eqn:Hp;
    [|injection Hc as <- <-; lia].
  destruct (decide (c1 = c)) as [->|Hne].
  - (* the run constructs [c] itself *)
    exists n, s. split; [lia|]. split; [apply within_refl|].
    split; [done|]. split; [by exists r, s1|].
    intros n2 u u' Hu [r2 Hres2].
    destruct (same_request u s x o (within_bindings _ _ (proj1 Hu)))
      as [Hp2 Hl2].
    apply resolve_Done in Hres2
      as (n2' & l2 & -> & Hlife2 & [[Hhit2 ->]|(_ & u1 & Hc2 & ->)]).
    + exfalso. assert (l2 = l) as -> by congruence.
      destruct (within_cached _ _ (proj1 Hu) l (PClass c)) as [? Hs];
        [rewrite <-Hp, <-Hp2; by eexists|congruence].
    + rewrite built_remember. rewrite Hp2, Hp in Hc2.
      by eapply construct_builds; [apply resolve_adds|].
  - (* the run constructs [c1], which goes on to construct [c] *)
    pose proof (Honce _ _ _ _ Hc) as Hc1.
    apply construct_Done in Hc as (d & raw & vs & sb & Hd & Hraw & Hfill & ->).
    change (built c (write_fields (next_ref s) (mkInstance c1 vs) sb))
      with (built c sb) in Hlt.
    change (built c1 (write_fields (next_ref s) (mkInstance c1 vs) sb))
      with (built c1 sb) in Hc1.
    rewrite <-(built_prepare_other c1 c (mkInstance c1 raw) s Hne) in Hlt.
    rewrite <-(built_prepare c1 (mkInstance c1 raw) s) in Hc1.
    destruct (fill_fields_replays n c raw _ vs sb Hrep Hfill Hlt)
      as (m & t & Hm & Hst & Hts & Hcon & Hag).
    assert (Hnot : cached l (PClass c1) t = None).
    { destruct (cached l (PClass c1) t) as [r1|] eqn:Ht; [|done]. exfalso.
      assert (built c1 (allocate (mkInstance c1 raw) (log_construction c1 s)).2
              < built c1 sb); [|lia].
      apply (fill_fields_earns _ _ _ _ _ l c1 (resolve_adds n)
               (resolve_earns n) Hfill).
      - by destruct l.
      - apply (within_cached _ _ Hts). rewrite Ht. by eexists. }
    exists m, t. split; [lia|]. split; [|split; [|split; [done|]]].
    + eapply within_trans; [apply alike_prepare|exact Hst].
    + eapply within_trans; [exact Hts|].
      eapply within_trans; [apply alike_write|apply within_remember].
    + intros n2 u u' Hu [r2 Hres2].
      assert (Hbind : own_bindings k u = own_bindings k s).
      { etrans; [apply Hu|]. symmetry.
        etrans; [|apply Hst]. done. }
      destruct (same_request u s x o Hbind) as [Hp2 Hl2].
      apply resolve_Done in Hres2
        as (n2' & l2 & -> & Hlife2 & [[Hhit2 ->]|(_ & u1 & Hc2 & ->)]).
      * exfalso. assert (l2 = l) as -> by congruence.
        destruct (within_cached _ _ (proj1 Hu) l (PClass c1)) as [? Hs];
          [rewrite <-Hp, <-Hp2; by eexists|congruence].
      * rewrite built_remember. rewrite Hp2, Hp in Hc2.
        apply construct_Done in Hc2
          as (d2 & raw2 & vs2 & ub & Hd2 & Hraw2 & Hfill2 & ->).
        assert (d2 = d) as -> by congruence.
        assert (raw2 = raw) as -> by congruence.
        change (built c (write_fields (next_ref u) (mkInstance c1 vs2) ub))
          with (built c ub).
        rewrite <-(built_prepare_other c1 c (mkInstance c1 raw) u Hne).
        apply (Hag n2' _ ub).
        -- eapply alike_trans; [apply alike_sym, alike_prepare|exact Hu].
        -- by exists vs2.
Qed.

Lemma once_intro n : replays n → (∀ m, m < n → once m) → once n.
Proof.
  intros Hrep Hbelow c s r s' Hc.
  apply construct_Done in Hc as (d & raw & vs & sb & Hd & Hraw & Hfill & ->).
  change (built c (write_fields (next_ref s) (mkInstance c vs) sb))
    with (built c sb).
  rewrite <-(built_prepare c (mkInstance c raw) s).
  pose proof (fill_fields_adds _ _ _ _ _ (resolve_adds n) Hfill) as [_ Hb].
  specialize (Hb c).
  destruct (decide (built c (allocate (mkInstance c raw)
                               (log_construction c s)).2 < built c sb))
    as [Hlt|Hge]; [|lia].
  exfalso.
  destruct (fill_fields_replays n c raw _ vs sb Hrep Hfill Hlt)
    as (m & t & Hm & _ & _ & (r0 & t' & Hcon) & Hag).
  pose proof (Hbelow m Hm _ _ _ _ Hcon) as Honce.
  apply construct_Done in Hcon
    as (d2 & raw2 & vs2 & tb & Hd2 & Hraw2 & Hfill2 & ->).
  assert (d2 = d) as -> by congruence.
  assert (raw2 = raw) as -> by congruence.
  change (built c (write_fields (next_ref t) (mkInstance c vs2) tb))
    with (built c tb) in Honce.
  rewrite <-(built_prepare c (mkInstance c raw) t) in Honce.
  assert (built c (allocate (mkInstance c raw) (log_construction c t)).2
          < built c tb); [|lia].
  apply (Hag m _ tb).
  - apply alike_sym, alike_prepare.
  - by exists vs2.
Qed.

Lemma no_reentry n : replays n ∧ once n.
Proof.
  induction n as [n IH] using lt_wf_ind.
  assert (Hrep : replays n).
  { destruct n as [|n]; [apply replays_0|].
    destruct (IH n) as [Hr Ho]; [lia|]. by apply replays_S. }
  split; [exact Hrep|]. apply once_intro; [exact Hrep|].
  intros m Hm. by apply IH.
Qed.

(** The construction of a class that returns has constructed that class
    once: none of the resolutions it asked for constructed it again. *)
Lemma construct_once n c s r s' :
  construct program (resolve program n k) (PClass c) s = Done r s' →
  built c s' = S (built c s).
Proof. apply no_reentry. Qed.

(** A resolution that returns has constructed its producer once when it
    missed the cache of its lifecycle, and not at all when it hit. *)
Lemma resolve_builds_once fuel x o s r s' c :
  resolve program fuel k x o s = Done r s' →
  producer_for k x s = PClass c →
  ∃ l, effective_lifecycle program k x o s = Some l
       ∧ ((cached l (PClass c) s = Some r ∧ s' = s)
          ∨ (cached l (PClass c) s = None ∧ built c s' = S (built c s))).
Proof.
  intros Hres Hp.
  apply resolve_Done in Hres
    as (n' & l & -> & Hlife & [[Hhit ->]|(Hmiss & s1 & Hc & ->)]);
    rewrite Hp in *; exists l; (split; [done|]).
  - by left.
  - right. split; [done|]. rewrite built_remember. by eapply construct_once.
Qed.

End Reentry.

(** Two classes without fields: class 0 declares "singleton", class 1
    stands in for it where a container rebinds it; class 2 declares
    "singleton" and its constructor throws. *)
Definition two_classes : gmap nat ClassDecl :=
  {[ 0 := mkDecl SingletonScope None []; 1 := mkDecl SingletonScope None [];
     2 := mkDecl SingletonScope None [("db", InitThrows 7)] ]}.

(** A root and two [scoped()] children of it. *)
Definition family_root : Kernel := (new_Kernel empty_store).1.
Definition family_first : Kernel :=
  (scoped family_root (new_Kernel empty_store).2).1.
Definition family_second : Kernel :=
  (scoped family_root (scoped family_root (new_Kernel empty_store).2).2).1.
Definition family_store : Store :=
  (scoped family_root (scoped family_root (new_Kernel empty_store).2).2).2.

(** The first child rebinds class 0 to class 1, as a singleton. *)
Definition rebound_store : Store :=
  bind family_first 0 (PClass 1) (Some SingletonScope) family_store.

(** The first child binds the identity 5 to class 0, per use. *)
Definition aliased_store : Store :=
  bind family_first 5 (PClass 0) (Some TransientScope) family_store.



Definition first_resolved : Store :=
  outcome_store (resolve two_classes 1 family_first 0 None family_store).

Lemma well_formed_family_store : well_formed family_store.
Proof.
  intros c m. unfold family_store, family_root. simpl.
  intros Hm. destruct (decide (c = 1)) as [->|Hc]; [lia|].
  rewrite lookup_insert_ne in Hm by done. done.
Qed.


End KernelSpec.

(** ** The memoization engine *)
Module MemoSpec.
Import Memo.

Section Engine.

Context {Args K V E : Type} `{Countable K}.
Variable argKey : Args → K.
Variable fn : nat → Args → FnResult (V := V).

Abbreviation State := (State (Args := Args) (K := K) (V := V) (E := E)).
Abbreviation Entry := (Entry (V := V)).
Abbreviation memoized := (memoized argKey fn).
Abbreviation fresh := (fresh argKey fn).
Abbreviation run_op := (run_op argKey fn).
Abbreviation run_ops := (run_ops argKey fn).

Implicit Types (s : State) (a : Args) (k : K) (p : nat).

Lemma memoized_hit a s e :
  cache s !! argKey a = Some e → memoized a s = (e, s).
Proof. intros He. unfold Memo.memoized. by rewrite He. Qed.

Lemma memoized_miss a s :
  cache s !! argKey a = None →
  memoized a s = ((invoke fn a s).1, put (argKey a) (invoke fn a s).1 (invoke fn a s).2).
Proof.
  intros He. unfold Memo.memoized. rewrite He. by destruct (invoke fn a s).
Qed.

Lemma invoke_calls a s : calls (invoke fn a s).2 = a :: calls s.
Proof. unfold invoke. by destruct (fn _ a). Qed.

Lemma invoke_cache a s : cache (invoke fn a s).2 = cache s.
Proof. unfold invoke. by destruct (fn _ a). Qed.

Lemma invoke_armed a s : armed (invoke fn a s).2 = armed s.
Proof. unfold invoke. by destruct (fn _ a). Qed.

Lemma memoized_stores a s :
  cache (memoized a s).2 !! argKey a = Some (memoized a s).1.
Proof.
  destruct (cache s !! argKey a) as [e|] eqn:He.
  - by rewrite (memoized_hit a s e He).
  - rewrite (memoized_miss a s He). simpl. by rewrite lookup_insert_eq.
Qed.

Lemma memoized_other_key a s k :
  k ≠ argKey a → cache (memoized a s).2 !! k = cache s !! k.
Proof.
  intros Hk. destruct (cache s !! argKey a) as [e|] eqn:He.
  - by rewrite (memoized_hit a s e He).
  - rewrite (memoized_miss a s He). simpl.
    rewrite lookup_insert_ne by done. by rewrite invoke_cache.
Qed.

(** C4: a memoized call leaves its result under the argument key at once: a
    value the wrapped function returned, or the pending result it started,
    still in flight.  A second call with an equal key returns that stored
    entry and invokes nothing, so that from a cache without the key the two
    calls invoke the wrapped function exactly once; two calls with distinct
    keys, neither cached, invoke it once each. *)
Theorem memoized_invokes_once_per_key (s : State) (a1 a2 : Args) :
  let e1 := (memoized a1 s).1 in
  let s1 := (memoized a1 s).2 in
  cache s1 !! argKey a1 = Some e1
  ∧ (argKey a2 = argKey a1 → memoized a2 s1 = (e1, s1))
  ∧ (cache s !! argKey a1 = None →
       calls s1 = a1 :: calls s
       ∧ (∀ v, fn (length (calls s)) a1 = Returns v → e1 = Value v)
       ∧ (fn (length (calls s)) a1 = Starts →
            e1 = Pending (next_promise s)
            ∧ promises s1 !! next_promise s = Some InFlight)
       ∧ (argKey a2 = argKey a1 →
            calls (memoized a2 s1).2 = a1 :: calls s)
       ∧ (argKey a2 ≠ argKey a1 → cache s !! argKey a2 = None →
            calls (memoized a2 s1).2 = a2 :: a1 :: calls s)).
Proof.
  cbv zeta. split; [apply memoized_stores|]. split.
  - intros Hk. apply memoized_hit. rewrite Hk. apply memoized_stores.
  - intros Hmiss. rewrite (memoized_miss a1 s Hmiss). simpl.
    split; [apply invoke_calls|]. split; [|split; [|split]].
    + intros v Hv. unfold invoke. by rewrite Hv.
    + intros Hst. unfold invoke. rewrite Hst. simpl.
      by rewrite lookup_insert_eq.
    + intros Hk. erewrite memoized_hit.
      * simpl. apply invoke_calls.
      * simpl. rewrite Hk. by rewrite lookup_insert_eq.
    + intros Hk Hmiss2. rewrite memoized_miss.
      * simpl. rewrite invoke_calls. simpl. by rewrite invoke_calls.
      * simpl. rewrite lookup_insert_ne by done. by rewrite invoke_cache.
Qed.

(** Every pending result in the cache has its eviction armed. *)
Definition armed_ok (s : State) : Prop :=
  ∀ k p, cache s !! k = Some (Pending p) → (p, k) ∈ armed s.

Lemma evict_cons p qk arms (c : gmap K Entry) :
  evict p (qk :: arms) c
    = if bool_decide (qk.1 = p) && holds_pending (evict p arms c) qk.2 p
      then delete qk.2 (evict p arms c) else evict p arms c.
Proof. reflexivity. Qed.

Lemma evict_subset p arms (c : gmap K Entry) k e :
  evict p arms c !! k = Some e → c !! k = Some e.
Proof.
  revert k e. induction arms as [|qk arms IH]; intros k e; [done|].
  simpl. destruct (_ && _).
  - intros Hk. apply IH. by apply lookup_delete_Some in Hk as [_ ?].
  - apply IH.
Qed.

Lemma evict_removes p arms (c : gmap K Entry) k :
  (p, k) ∈ arms → evict p arms c !! k ≠ Some (Pending p).
Proof.
  induction arms as [|qk arms IH]; intros Hin; [by apply elem_of_nil in Hin|].
  simpl. apply elem_of_cons in Hin as [<-|Hin].
  - simpl. rewrite bool_decide_eq_true_2 by done. simpl.
    unfold holds_pending.
    destruct (evict p arms c !! k) as [[v|q]|] eqn:Hk; simpl.
    + by rewrite Hk.
    + case_bool_decide as Hq.
      * by rewrite lookup_delete_eq.
      * rewrite Hk. congruence.
    + by rewrite Hk.
  - destruct (_ && _).
    + intros Hk. apply lookup_delete_Some in Hk as [_ Hk]. by apply IH.
    + by apply IH.
Qed.

Lemma evict_keeps p arms (c : gmap K Entry) k e :
  c !! k = Some e → e ≠ Pending p → evict p arms c !! k = Some e.
Proof.
  intros Hk He. induction arms as [|qk arms IH]; [done|].
  rewrite evict_cons.
  destruct (bool_decide (qk.1 = p) && holds_pending _ _ _) eqn:Hb; [|done].
  apply andb_true_iff in Hb as [_ Hh]. unfold holds_pending in Hh.
  destruct (decide (qk.2 = k)) as [Heq|Hne].
  - rewrite Heq, IH in Hh. destruct e as [v|q]; [done|].
    apply bool_decide_eq_true in Hh. congruence.
  - by rewrite lookup_delete_ne.
Qed.

Lemma put_armed_ok k e s : armed_ok s → armed_ok (put k e s).
Proof.
  intros Hs k' p'. unfold put. simpl.
  destruct (decide (k' = k)) as [->|Hne].
  - rewrite lookup_insert_eq. intros [= ->]. left.
  - rewrite lookup_insert_ne by done. intros Hk. apply Hs in Hk.
    destruct e; [done|]. by right.
Qed.

Lemma invoke_armed_ok a s : armed_ok s → armed_ok (invoke fn a s).2.
Proof.
  intros Hs k p. rewrite invoke_cache, invoke_armed. apply Hs.
Qed.

Lemma run_op_armed_ok o s : armed_ok s → armed_ok (run_op o s).
Proof.
  intros Hs. destruct o as [a|a|a e|a|a| | |p o]; simpl.
  - unfold Memo.memoized. destruct (cache s !! argKey a); [done|].
    pose proof (invoke_armed_ok a s Hs). destruct (invoke fn a s).
    by apply put_armed_ok.
  - unfold Memo.fresh.
    pose proof (invoke_armed_ok a s Hs). destruct (invoke fn a s).
    by apply put_armed_ok.
  - by apply put_armed_ok.
  - unfold preload, Memo.memoized. destruct (cache s !! argKey a); [done|].
    pose proof (invoke_armed_ok a s Hs). destruct (invoke fn a s).
    by apply put_armed_ok.
  - intros k p. unfold bust. simpl. intros Hk.
    apply lookup_delete_Some in Hk as [_ Hk]. by apply Hs.
  - intros k p. unfold bustAll. simpl. by rewrite lookup_empty.
  - done.
  - unfold settle. destruct (promises s !! p) as [[|?]|]; [|done..].
    intros k q. simpl. destruct o as [v|e]; [apply Hs|].
    intros Hk. apply evict_subset in Hk. by apply Hs.
Qed.

Lemma run_ops_armed_ok ops s : armed_ok s → armed_ok (run_ops ops s).
Proof.
  revert s. induction ops as [|o ops IH]; intros s Hs; [done|].
  simpl. apply IH. by apply run_op_armed_ok.
Qed.

Lemma empty_armed_ok : armed_ok empty_state.
Proof. intros k p. unfold empty_state. simpl. by rewrite lookup_empty. Qed.

(** C6: in every state a memoized function can get into (through calls,
    [fresh], [prime], [preload], [bust], [bustAll] and settlements), when the
    pending result stored under a key fails, the entry is removed and the
    next call with that key invokes the wrapped function again, while the
    pending result itself, which is what the callers were handed, carries
    the failure; the other entries stay.  When it settles successfully the
    entry stays and later calls return it without invoking anything. *)
Theorem failed_entry_is_evicted (ops : list Op) (k : K) (p : nat) :
  let s := run_ops ops empty_state in
  cache s !! k = Some (Pending p) →
  promises s !! p = Some InFlight →
  (∀ e : E,
     let s' := settle p (Rejected e) s in
     cache s' !! k = None
     ∧ promises s' !! p = Some (Settled (Rejected e))
     ∧ (∀ a, argKey a = k → calls (memoized a s').2 = a :: calls s')
     ∧ (∀ k' e', cache s !! k' = Some e' → e' ≠ Pending p →
                 cache s' !! k' = Some e'))
  ∧ (∀ v : V,
       let s' := settle p (Fulfilled v) s in
       cache s' !! k = Some (Pending p)
       ∧ promises s' !! p = Some (Settled (Fulfilled v))
       ∧ (∀ a, argKey a = k → memoized a s' = (Pending p, s'))).
Proof.
  intros s Hk Hp.
  assert (Harm : (p, k) ∈ armed s).
  { apply (run_ops_armed_ok ops empty_state empty_armed_ok). exact Hk. }
  split.
  - intros e s'. subst s'. unfold settle. rewrite Hp. simpl.
    assert (Hgone : evict p (armed s) (cache s) !! k = None).
    { destruct (evict p (armed s) (cache s) !! k) as [e0|] eqn:Hev; [|done].
      pose proof (evict_subset _ _ _ _ _ Hev) as H0.
      rewrite Hk in H0. injection H0 as <-.
      by apply evict_removes in Hev. }
    split; [exact Hgone|]. split; [by rewrite lookup_insert_eq|]. split.
    + intros a <-. rewrite memoized_miss by done. simpl.
      by rewrite invoke_calls.
    + intros k' e' Hk' He'. by apply evict_keeps.
  - intros v s'. subst s'. unfold settle. rewrite Hp. simpl.
    split; [exact Hk|]. split; [by rewrite lookup_insert_eq|].
    intros a <-. by apply memoized_hit.
Qed.

End Engine.

Lemma memoized_invokes_once_per_key_witness :
  let fn : nat → nat → FnResult (V := nat) := λ _ _, Starts in
  let s : State (Args := nat) (K := nat) (V := nat) (E := nat) := empty_state in
  cache s !! 1 = None
  ∧ calls (memoized id fn 1 (memoized id fn 1 s).2).2 = [1]
  ∧ calls (memoized id fn 2 (memoized id fn 1 s).2).2 = [2; 1].
Proof.
  intros fn s.
  assert (Hmiss : cache s !! id 1 = None) by reflexivity.
  split; [exact Hmiss|].
  pose proof (proj2 (proj2 (memoized_invokes_once_per_key id fn s 1 1)) Hmiss)
    as (_ & _ & _ & Hsame & _).
  pose proof (proj2 (proj2 (memoized_invokes_once_per_key id fn s 1 2)) Hmiss)
    as (_ & _ & _ & _ & Hdiff).
  split; [exact (Hsame eq_refl)|].
  apply Hdiff; [simpl; lia|reflexivity].
Defined.

Lemma failed_entry_is_evicted_witness :
  let fn : nat → nat → FnResult (V := nat) := λ _ _, Starts in
  let s : State (Args := nat) (K := nat) (V := nat) (E := nat) :=
    run_ops id fn [OpCall 7] empty_state in
  cache s !! 7 = Some (Pending 0)
  ∧ promises s !! 0 = Some InFlight
  ∧ cache (settle 0 (Rejected 13) s) !! 7 = None
  ∧ promises (settle 0 (Rejected 13) s) !! 0 = Some (Settled (Rejected 13)).
Proof.
  intros fn s.
  assert (Hk : cache s !! 7 = Some (Pending 0)) by reflexivity.
  assert (Hp : promises s !! 0 = Some InFlight) by reflexivity.
  split; [exact Hk|]. split; [exact Hp|].
  pose proof (proj1 (failed_entry_is_evicted id fn [OpCall 7] 7 0 Hk Hp) 13)
    as (Hgone & Hrej & _).
  split; [exact Hgone | exact Hrej].
Defined.

End MemoSpec.

(** ** The argument key *)
Module MemoKeySpec.
Import MemoKey.

(** Induction over argument values, through the lists they nest. *)
Lemma data_nested_ind (P : data → Prop) :
  P DUndefined → P DNull → (∀ b, P (DBool b)) → (∀ n, P (DNum n)) →
  (∀ s, P (DStr s)) →
  (∀ items, Forall P items → P (DArr items)) →
  (∀ fields, Forall (λ p, P p.2) fields → P (DObj fields)) →
  ∀ d, P d.
Proof.
  intros Hu Hn Hb Hz Hs Ha Ho. fix IH 1. intros [| |b|n|s|items|fields].
  - exact Hu.
  - exact Hn.
  - apply Hb.
  - apply Hz.
  - apply Hs.
  - apply Ha. induction items as [|x xs IHxs]; constructor; [apply IH|exact IHxs].
  - apply Ho. induction fields as [|[name x] xs IHxs]; constructor;
      [apply IH|exact IHxs].
Qed.

Definition retag (p : string * data) : string * data := (p.1, serialize p.2).

Lemma serialize_obj fields :
  serialize (DObj fields) = DObj (merge_sort name_le (map retag fields)).
Proof. reflexivity. Qed.

Lemma serialize_arr items :
  serialize (DArr items) = DArr (map serialize items).
Proof. reflexivity. Qed.

Lemma well_formed_arr items :
  well_formed (DArr items) ↔ Forall well_formed items.
Proof.
  simpl. induction items as [|x xs IH]; simpl.
  - split; [constructor|done].
  - rewrite Forall_cons. by rewrite IH.
Qed.

Lemma well_formed_obj fields :
  well_formed (DObj fields)
  ↔ NoDup (fields.*1) ∧ Forall (λ p, well_formed p.2) fields.
Proof.
  simpl. apply and_iff_compat_l.
  induction fields as [|x xs IH]; simpl.
  - split; [constructor|done].
  - rewrite Forall_cons. by rewrite IH.
Qed.

#[local] Instance name_le_total : Total name_le.
Proof. intros p q. unfold name_le. apply (total String.le). Qed.

#[local] Instance name_le_trans : Transitive name_le.
Proof. intros p q r. unfold name_le. apply transitivity. Qed.

Lemma retag_names fields : (map retag fields).*1 = fields.*1.
Proof.
  induction fields as [|p ps IH]; [done|].
  change ((p.1 :: (map retag ps).*1) = (p.1 :: ps.*1)). by f_equal.
Qed.

Lemma same_name_same_field (l : list (string * data)) p q :
  NoDup (l.*1) → p ∈ l → q ∈ l → p.1 = q.1 → p = q.
Proof.
  induction l as [|x xs IH]; intros Hnd Hp Hq Hpq.
  { by apply elem_of_nil in Hp. }
  simpl in Hnd. apply NoDup_cons in Hnd as [Hx Hnd].
  apply elem_of_cons in Hp as [->|Hp]; apply elem_of_cons in Hq as [->|Hq].
  - done.
  - exfalso. apply Hx. rewrite Hpq. by apply list_elem_of_fmap_2.
  - exfalso. apply Hx. rewrite <-Hpq. by apply list_elem_of_fmap_2.
  - by apply IH.
Qed.

(** Sorting by name forgets the order the properties came in. *)
Lemma sort_unique (l1 l2 : list (string * data)) :
  NoDup (l1.*1) → l1 ≡ₚ l2 →
  merge_sort name_le l1 = merge_sort name_le l2.
Proof.
  intros Hnd Hperm.
  apply (Sorted_unique_strong name_le).
  - intros x1 x2 Hx1 Hx2 H12 H21.
    apply (same_name_same_field l1); [done| | |].
    + by rewrite <-(merge_sort_Permutation name_le l1).
    + rewrite Hperm. by rewrite <-(merge_sort_Permutation name_le l2).
    + unfold name_le in *. by apply (anti_symm String.le).
  - apply Sorted_merge_sort, _.
  - apply Sorted_merge_sort, _.
  - by rewrite !merge_sort_Permutation.
Qed.

Lemma same_value_refl d : same_value d d.
Proof.
  induction d as [| | | | |items IH|fields IH] using data_nested_ind;
    try constructor.
  - induction IH; constructor; auto.
  - apply (same_obj fields fields fields); [done|].
    induction IH; constructor; auto.
Qed.

(** Order independence: values that differ only in the order of their
    properties have one serialization. *)
Lemma serialize_same d1 :
  well_formed d1 → ∀ d2, same_value d1 d2 → serialize d1 = serialize d2.
Proof.
  induction d1 as [| | | | |items IH|fields IH] using data_nested_ind;
    intros Hwf d2 Hsame; inversion Hsame; subst; try reflexivity.
  - rewrite !serialize_arr. f_equal.
    apply well_formed_arr in Hwf.
    match goal with Hf : Forall2 same_value _ _ |- _ =>
      induction Hf as [|x y xs ys Hxy Hrest IHrest]; [done|] end.
    apply Forall_cons in IH as [IHx IHxs].
    apply Forall_cons in Hwf as [Hx Hxs].
    simpl. f_equal; auto.
    apply IHrest; auto. by constructor.
  - rewrite !serialize_obj. f_equal.
    apply well_formed_obj in Hwf as [Hnd Hwf].
    match goal with Hp : _ ≡ₚ fields2' |- _ => rename Hp into Hperm end.
    assert (Hmap : map retag fields = map retag fields2').
    { clear Hsame Hnd Hperm.
      match goal with Hf : Forall2 _ fields fields2' |- _ =>
        induction Hf as [|p q ps qs [Hname Hval] Hrest IHrest]; [done|] end.
      apply Forall_cons in IH as [IHp IHps].
      apply Forall_cons in Hwf as [Hp Hps].
      simpl. f_equal; [|apply IHrest; assumption].
      unfold retag. by rewrite Hname, (IHp Hp _ Hval). }
    apply sort_unique; [by rewrite retag_names|].
    rewrite Hmap. by apply Permutation_map.
Qed.

(** Distinction: values with one serialization differ at most in the order
    of their properties. *)
Lemma serialize_distinguishes d1 :
  ∀ d2, serialize d1 = serialize d2 → same_value d1 d2.
Proof.
  induction d1 as [| | | | |items IH|fields IH] using data_nested_ind;
    intros [| |b2|n2|s2|items2|fields2] Heq; try discriminate Heq;
    try (injection Heq as <-); try constructor.
  - rewrite !serialize_arr in Heq. injection Heq as Heq.
    revert items2 Heq. induction IH as [|x xs Hx Hxs IHxs];
      intros [|y ys] Heq; try discriminate Heq; constructor.
    + apply Hx. by injection Heq.
    + apply IHxs. by injection Heq.
  - rewrite !serialize_obj in Heq. injection Heq as Heq.
    assert (Hperm : map retag fields ≡ₚ map retag fields2).
    { rewrite <-(merge_sort_Permutation name_le (map retag fields)).
      rewrite Heq. apply merge_sort_Permutation. }
    apply Permutation_map_inv in Hperm as (fields2' & Hmap & Hperm).
    apply (same_obj fields fields2 fields2'); [done|].
    clear Heq Hperm. revert fields2' Hmap.
    induction IH as [|p ps Hp Hps IHps]; intros [|q qs] Hmap;
      try discriminate Hmap; constructor.
    + unfold retag in Hmap. injection Hmap as Hname Hval _.
      split; [done|]. by apply Hp.
    + apply IHps. by injection Hmap.
Qed.

Lemma same_value_scalar d1 d2 :
  same_value d1 d2 → is_scalar d1 = is_scalar d2 ∧ (is_scalar d1 = true → d1 = d2).
Proof. intros Hs. by inversion Hs. Qed.

(** C5: the argument key is a function of the arguments; it is the same for
    arguments that differ only in the order in which the properties of
    their objects were written; arguments with the same key differ in
    nothing else; and a single scalar argument is its own key. *)
Theorem argKey_order_independent :
  (∀ args1 args2,
     Forall well_formed args1 → Forall2 same_value args1 args2 →
     argKey args1 = argKey args2)
  ∧ (∀ fields1 fields2,
       well_formed (DObj fields1) → fields1 ≡ₚ fields2 →
       argKey [DObj fields1] = argKey [DObj fields2])
  ∧ (∀ args1 args2,
       argKey args1 = argKey args2 → Forall2 same_value args1 args2)
  ∧ (∀ d, is_scalar d = true → argKey [d] = OwnValue d).
Proof.
  assert (Hstable : ∀ args1 args2,
            Forall well_formed args1 → Forall2 same_value args1 args2 →
            argKey args1 = argKey args2).
  { intros args1 args2 Hwf Hsame.
    assert (Hser : serialize (DArr args1) = serialize (DArr args2)).
    { apply serialize_same; [by apply well_formed_arr|by constructor]. }
    destruct Hsame as [|d1 d2 rest1 rest2 Hd Hrest]; [done|].
    destruct Hrest as [|d1' d2' rest1 rest2 Hd' Hrest].
    - unfold argKey. destruct (same_value_scalar d1 d2 Hd) as [Hsc Heq].
      rewrite <-Hsc. destruct (is_scalar d1).
      + by rewrite Heq.
      + by rewrite Hser.
    - unfold argKey. by rewrite Hser. }
  split; [exact Hstable|]. split; [|split].
  - intros fields1 fields2 Hwf Hperm. apply Hstable.
    + by constructor.
    + constructor; [|constructor].
      apply (same_obj fields1 fields2 fields1); [done|].
      clear. induction fields1; constructor; auto using same_value_refl.
  - intros args1 args2 Hkey.
    assert (Hser : ∀ a1 a2, Serialized (serialize (DArr a1))
                            = Serialized (serialize (DArr a2)) →
                            Forall2 same_value a1 a2).
    { intros a1 a2 [= Heq].
      pose proof (serialize_distinguishes (DArr a1) (DArr a2)) as Hd.
      rewrite !serialize_arr in Hd. specialize (Hd (f_equal DArr Heq)).
      by inversion Hd. }
    destruct args1 as [|d1 [|d1' rest1]]; destruct args2 as [|d2 [|d2' rest2]];
      unfold argKey in Hkey;
      repeat match type of Hkey with
             | context [is_scalar ?d] => destruct (is_scalar d) eqn:?
             end;
      try discriminate Hkey; try (by apply Hser).
    injection Hkey as <-. constructor; [apply same_value_refl|constructor].
  - intros d Hd. unfold argKey. by rewrite Hd.
Qed.

Lemma argKey_order_independent_witness :
  well_formed (DObj [("a", DNum 1); ("b", DNum 2)])
  ∧ [("a", DNum 1); ("b", DNum 2)] ≡ₚ [("b", DNum 2); ("a", DNum 1)]
  ∧ argKey [DObj [("a", DNum 1); ("b", DNum 2)]]
    = argKey [DObj [("b", DNum 2); ("a", DNum 1)]]
  ∧ argKey [DStr "1"] = OwnValue (DStr "1")
  ∧ argKey [DStr "1"] ≠ argKey [DStr "2"].
Proof.
  assert (Hwf : well_formed (DObj [("a", DNum 1%Z); ("b", DNum 2%Z)])).
  { simpl. split; [|done]. apply (bool_decide_unpack _). vm_compute. exact I. }
  assert (Hperm : [("a", DNum 1%Z); ("b", DNum 2%Z)]
                  ≡ₚ [("b", DNum 2%Z); ("a", DNum 1%Z)])
    by apply Permutation_swap.
  split; [exact Hwf|]. split; [exact Hperm|]. split; [|split].
  - exact (proj1 (proj2 argKey_order_independent) _ _ Hwf Hperm).
  - exact (proj2 (proj2 (proj2 argKey_order_independent)) (DStr "1") eq_refl).
  - intros Heq.
    pose proof (proj1 (proj2 (proj2 argKey_order_independent)) _ _ Heq) as Hs.
    inversion Hs as [|? ? ? ? Hd]; subst. inversion Hd.
Defined.

End MemoKeySpec.

(* ===================================================================== *)
(** * Part III: further properties of the sources                          *)
(* ===================================================================== *)

(** ** modules.ts: the boundary, statically and at runtime *)
Module BoundarySpec.
Import Types Dependencies Modules StaticBoundary.

(** The layer the brand of each role class names. *)
Definition role_layer (r : Role) : Layer :=
  match r with
  | Facade => facade
  | Service => service
  | Repo => repo
  | Controller => controller
  | Singleton | Class => other
  end.

Lemma role_class_brand name next r :
  BRAND (role_class (createModule name next).1 r) = mkBrand name (role_layer r).
Proof. by destruct r. Qed.

Lemma role_layer_facade r : role_layer r = facade ↔ r = Facade.
Proof. by destruct r. Qed.

Lemma AllowedDependency_unfold name key :
  AllowedDependency name key
  = if instantiable key
       && bool_decide (ModulesSpec.boundary_violation name (key_class key))
    then inl ("Cross-module " +:+ Capitalize (Layer_to_string (LayerOf key))
              +:+ " injection is not allowed. Use a Facade.")
    else inr key.
Proof.
  unfold AllowedDependency, extends_ModuleClass, LayerOf,
    ModulesSpec.boundary_violation.
  destruct (instantiable key); cbn [andb]; [|done].
  rewrite andb_true_r.
  destruct (decide (moduleName (BRAND (key_class key)) = name)) as [Hm|Hm].
  - rewrite (bool_decide_eq_true_2 _ Hm).
    rewrite bool_decide_eq_false_2; [done|]. by intros [? _].
  - rewrite (bool_decide_eq_false_2 _ Hm).
    destruct (decide (layerName (BRAND (key_class key)) ≠ facade)) as [Hl|Hl].
    + by rewrite (bool_decide_eq_true_2 _ Hl), bool_decide_eq_true_2.
    + rewrite (bool_decide_eq_false_2 _ Hl).
      rewrite bool_decide_eq_false_2; [done|]. by intros [_ ?].
Qed.

(** X1: for a key that is a concrete class, assignable to
    [new () => unknown], the type [AllowedDependency] and the check at the
    head of [inject] draw the same line: the type evaluates to an error
    message exactly when [inject] throws on the class, and to the key itself
    exactly when [inject] returns a marker.  For a key that is not, as the
    abstract role classes [createModule] returns, the type is the key itself
    whatever [inject] does.  The message of the type names the layer with a
    capital, and comes only for a concrete class of another module that is no
    facade. *)
Theorem static_check_agrees_with_runtime (name : string) (key : KeyType)
    (scope : option Scope) :
  (instantiable key = true →
     ((∃ msg, AllowedDependency name key = inl msg)
        ↔ ModulesSpec.throws (inject name (key_class key) scope))
     ∧ (AllowedDependency name key = inr key
        ↔ ∃ m, inject name (key_class key) scope = inr m))
  ∧ (instantiable key = false → AllowedDependency name key = inr key)
  ∧ (∀ msg, AllowedDependency name key = inl msg →
       instantiable key = true
       ∧ ModulesSpec.boundary_violation name (key_class key)
       ∧ msg = "Cross-module "
               +:+ match LayerOf key with
                   | facade => "Facade"
                   | service => "Service"
                   | repo => "Repo"
                   | controller => "Controller"
                   | other => "Other"
                   end
               +:+ " injection is not allowed. Use a Facade.").
Proof.
  rewrite ModulesSpec.inject_unfold, AllowedDependency_unfold.
  unfold ModulesSpec.throws.
  destruct (instantiable key) eqn:Hi; cbn [andb].
  - destruct (decide (ModulesSpec.boundary_violation name (key_class key)))
      as [Hv|Hn].
    + rewrite (bool_decide_eq_true_2 _ Hv). split; [|split].
      * intros _. split.
        -- split; intros _; by eexists.
        -- split; [done|]. by intros [m ?].
      * done.
      * intros msg [= <-]. split; [done|]. split; [done|].
        unfold LayerOf. by destruct (layerName (BRAND (key_class key))).
    + rewrite (bool_decide_eq_false_2 _ Hn). split; [|split].
      * intros _. split.
        -- split; by intros [? ?].
        -- split; [by eexists|done].
      * done.
      * by intros msg ?.
  - split; [done|]. split; [done|]. by intros msg ?.
Qed.

Lemma static_check_agrees_with_runtime_witness :
  AllowedDependency "Posts"
    (mkKeyType (extends (mService (createModule "Users" 0).1) 9 None) true)
  = inl "Cross-module Service injection is not allowed. Use a Facade."
  ∧ ModulesSpec.throws
      (inject "Posts" (extends (mService (createModule "Users" 0).1) 9 None)
         None)
  ∧ AllowedDependency "Posts"
      (mkKeyType (mService (createModule "Users" 0).1) false)
    = inr (mkKeyType (mService (createModule "Users" 0).1) false).
Proof.
  split; [reflexivity|]. split.
  - apply (proj1 (proj1 (static_check_agrees_with_runtime "Posts"
                           (mkKeyType
                              (extends (mService (createModule "Users" 0).1)
                                 9 None) true) None) eq_refl)).
    eexists. reflexivity.
  - exact (proj1 (proj2 (static_check_agrees_with_runtime "Posts"
                           (mkKeyType (mService (createModule "Users" 0).1)
                              false) None)) eq_refl).
Defined.

(** X2: between the classes two [createModule] calls return, only the names
    the modules were created with and the role matter.  [inject] of the module
    named [n2] throws on a role class of the module named [n1], or on a
    subclass of it, exactly when the names differ and the role is not Facade;
    two modules created with one name inject each other's classes freely.
    The marker it otherwise returns has the scope argument, else the scope
    the subclass redeclares, else the default of the role. *)
Theorem inject_between_created_modules (n1 n2 : string) (next id : nat)
    (r : Role) (own_scope scope : option Scope) :
  let base := role_class (createModule n1 next).1 r in
  let key := extends base id own_scope in
  (ModulesSpec.throws (inject n2 base scope) ↔ n1 ≠ n2 ∧ r ≠ Facade)
  ∧ (ModulesSpec.throws (inject n2 key scope) ↔ n1 ≠ n2 ∧ r ≠ Facade)
  ∧ (n1 = n2 ∨ r = Facade →
       inject n2 key scope
         = inr (tokenizedDependency key
                  (default (default (ModulesSpec.documented_lifecycle r)
                                    own_scope) scope)
                  None)).
Proof.
  intros base key.
  assert (Hb : BRAND base = mkBrand n1 (role_layer r))
    by apply role_class_brand.
  assert (Hk : BRAND key = mkBrand n1 (role_layer r)) by exact Hb.
  assert (Hs : class_scope base = ModulesSpec.documented_lifecycle r)
    by (by destruct r).
  assert (Hv : ∀ k, BRAND k = mkBrand n1 (role_layer r) →
             ModulesSpec.boundary_violation n2 k ↔ n1 ≠ n2 ∧ r ≠ Facade).
  { intros k Hbk. unfold ModulesSpec.boundary_violation. rewrite Hbk. simpl.
    by rewrite role_layer_facade. }
  assert (Ht : ∀ k, BRAND k = mkBrand n1 (role_layer r) →
             ModulesSpec.throws (inject n2 k scope) ↔ n1 ≠ n2 ∧ r ≠ Facade).
  { intros k Hbk. rewrite <-(Hv k Hbk). rewrite ModulesSpec.inject_unfold.
    unfold ModulesSpec.throws. destruct (decide _) as [Hy|Hno].
    - split; [done|]. intros _. by eexists.
    - split; [by intros [? ?]|done]. }
  split; [by apply Ht|]. split; [by apply Ht|].
  intros Hor. rewrite ModulesSpec.inject_allowed.
  - unfold key at 2. simpl. by rewrite Hs.
  - rewrite (Hv key Hk). intros [Hn Hr]. by destruct Hor.
Qed.

Lemma inject_between_created_modules_witness :
  inject "Users" (extends (mRepo (createModule "Users" 6).1) 20
                    (Some TransientScope)) None
  = inr (tokenizedDependency
           (extends (mRepo (createModule "Users" 6).1) 20 (Some TransientScope))
           TransientScope None).
Proof.
  exact (proj2 (proj2 (inject_between_created_modules "Users" "Users" 6 20
                         Repo (Some TransientScope) None))
           (or_introl eq_refl)).
Defined.

End BoundarySpec.

(** ** modules.ts: [isObject] and [isClass]; invariant.ts *)
Module GuardsSpec.
Import Types Dependencies Modules Guards Invariant.

Definition constructor_key : PropertyKey := PKString "constructor".

(** A reference to a function of the heap. *)
Definition is_function (h : Heap) (v : value) : Prop :=
  ∃ f o, v = VRef f ∧ h !! f = Some o ∧ callable o = true.

Lemma typeof_function h v :
  String.eqb (typeof h v) "function" = true ↔ is_function h v.
Proof.
  split.
  - destruct v as [| | | | | | |f]; simpl; try discriminate.
    destruct (h !! f) as [o|] eqn:Hf; [|discriminate].
    destruct (callable o) eqn:Hc; [|discriminate].
    intros _. by exists f, o.
  - intros (f & o & -> & Hf & Hc). simpl. by rewrite Hf, Hc.
Qed.

Lemma isObject_ref h r : isObject h (VRef r) = true.
Proof.
  unfold isObject. simpl. destruct (h !! r) as [o|]; [|done].
  by destruct (callable o).
Qed.

Lemma isClass_ref h r :
  isClass h (VRef r) = true
  ↔ ∃ c, get_property h (S (size h)) r constructor_key = Some c
         ∧ is_function h c.
Proof.
  unfold isClass. rewrite isObject_ref. cbn [andb has_property get].
  fold constructor_key.
  destruct (get_property h (S (size h)) r constructor_key) as [c|] eqn:Hg.
  - rewrite bool_decide_eq_true_2 by (by eexists). cbn [andb default].
    rewrite typeof_function. split; [by exists c|]. by intros (c' & [= <-] & ?).
  - rewrite bool_decide_eq_false_2 by (by intros [? ?]). cbn [andb].
    split; [done|]. by intros (c' & ? & _).
Qed.

Lemma heap_size (h : Heap) r o : h !! r = Some o → ∃ n, size h = S n.
Proof.
  intros Hr. destruct (size h) as [|n] eqn:Hs; [|by exists n].
  apply map_size_empty_inv in Hs. subst h. by rewrite lookup_empty in Hr.
Qed.


(** A heap with [Object.prototype] at 0, the function [Object] at 1,
    [Function.prototype] at 7 and the function [Function] at 8; a plain
    object literal at 2; a function with [f.constructor = 1] at 3; the
    object [{ constructor: 1 }] at 4 and [Object.create] of it at 5;
    [Object.create(null)] at 6; and an arrow function at 9. *)
Definition one : value := VNumber (S754_finite false 1 0).

Definition guard_heap : Heap :=
  {[ 0 := mkObject false [(constructor_key, VRef 1)] None;
     1 := mkObject true [(PKString "prototype", VRef 0)] (Some 7);
     2 := mkObject false [(PKString "name", VString "users")] (Some 0);
     3 := mkObject true [(constructor_key, one)] (Some 7);
     4 := mkObject false [(constructor_key, one)] (Some 0);
     5 := mkObject false [] (Some 4);
     6 := mkObject false [] None;
     7 := mkObject true [(constructor_key, VRef 8)] (Some 0);
     8 := mkObject true [(PKString "prototype", VRef 7)] (Some 7);
     9 := mkObject true [] (Some 7) ]}.


(** The conditions [invariant] rejects. *)
Definition falsy (v : value) : Prop :=
  v = VUndefined ∨ v = VNull ∨ v = VBoolean false
  ∨ (∃ negative, v = VNumber (S754_zero negative)) ∨ v = VNumber S754_nan
  ∨ v = VBigInt 0 ∨ v = VString EmptyString.

Lemma truthy_false_iff v : truthy v = false ↔ falsy v.
Proof.
  unfold falsy. split.
  - destruct v as [| |[|]|[s|s| |s m e]|n|s| |]; simpl; intros Hf;
      try discriminate Hf; eauto 10.
    + apply negb_false_iff, Z.eqb_eq in Hf. subst. eauto 10.
    + apply negb_false_iff, String.eqb_eq in Hf. subst. eauto 10.
  - intros [-> | [-> | [-> | [[s ->] | [-> | [-> | ->]]]]]]; reflexivity.
Qed.

(** X4: [invariant] throws exactly on [undefined], [null], [false], the
    numbers 0, -0 and NaN, the bigint 0 and the empty string, so a count of 0
    or an empty name trips it, while every object, function and symbol
    passes; what it throws carries the message it was given, and "Invariant
    violated" when it was given none. *)
Theorem invariant_throws_on_falsy (condition : value)
    (message : option string) :
  (ModulesSpec.throws (invariant condition message) ↔ falsy condition)
  ∧ (∀ e, invariant condition message = inl e →
       Modules.message e
         = match message with Some m => m | None => "Invariant violated" end)
  ∧ (¬ falsy condition → invariant condition message = inr tt)
  ∧ (∀ r, invariant (VRef r) message = inr tt)
  ∧ (∀ id, invariant (VSymbol id) message = inr tt).
Proof.
  unfold invariant, ModulesSpec.throws.
  destruct (truthy condition) eqn:Ht; simpl.
  - assert (Hnf : ¬ falsy condition).
    { rewrite <-truthy_false_iff. congruence. }
    split; [|split; [|split; [|split]]]; try done.
    split; [by intros [? ?]|done].
  - assert (Hf : falsy condition) by (by apply truthy_false_iff).
    split; [|split; [|split; [|split]]]; try done.
    + split; [done|]. intros _. by eexists.
    + intros e [= <-]. by destruct message.
Qed.

Lemma invariant_throws_on_falsy_witness :
  invariant (VNumber S754_nan) None = inl (mkError "Invariant violated")
  ∧ invariant (VBigInt 0) (Some "no rows") = inl (mkError "no rows")
  ∧ invariant (VString "0") None = inr tt.
Proof.
  split; [reflexivity|]. split; [reflexivity|].
  apply (proj1 (proj2 (proj2 (invariant_throws_on_falsy (VString "0") None)))).
  intros [Hf|[Hf|[Hf|[[s Hf]|[Hf|[Hf|Hf]]]]]]; discriminate Hf.
Defined.

End GuardsSpec.

(** ** concerns/devstable.ts: what a series of calls leaves behind *)
Module DevStableSeries.
Import Dependencies DevStableConcern DevStableSpec.

Lemma devStable_frame p key init fk :
  fk ≠ fullKey key →
  globalThis (devStable key init p).2 !! fk = globalThis p !! fk.
Proof.
  intros Hne. devStable_cases p key init; try done.
  simpl. by rewrite lookup_insert_ne.
Qed.

(** X5: a series of [devStable] calls only ever adds to [globalThis]: every
    property that was there is still there with its value, every property
    other than the prefixed keys of the calls is as it was, the environment
    is untouched, and with dev-stability disabled [globalThis] is the same
    object as before. *)
Theorem devStable_only_adds (calls : list (string * (unit → Completion)))
    (p : Process) :
  let p1 := (devStable_all calls p).2 in
  env p1 = env p
  ∧ (∀ fk w, globalThis p !! fk = Some w → globalThis p1 !! fk = Some w)
  ∧ (∀ fk, (∀ c, c ∈ calls → fk ≠ VLA_DEV_STABLE_PREFIX +:+ c.1) →
           globalThis p1 !! fk = globalThis p !! fk)
  ∧ (isDevStableEnabled (env p) = false → globalThis p1 = globalThis p).
Proof.
  cbv zeta. split; [apply devStable_all_env|].
  split; [intros fk w; apply devStable_all_keeps|]. split.
  - revert p. induction calls as [|[key init] rest IH]; intros p fk Hfk; [done|].
    rewrite devStable_all_cons. simpl. rewrite IH.
    + apply devStable_frame. apply (Hfk (key, init)). left.
    + intros c Hc. apply Hfk. by right.
  - revert p. induction calls as [|[key init] rest IH]; intros p Hd; [done|].
    rewrite devStable_all_cons. simpl. rewrite IH.
    + by rewrite devStable_disabled.
    + by rewrite devStable_env.
Qed.

Lemma devStable_only_adds_witness :
  globalThis
    (devStable_all [ ("db", λ _, Returned (VString "pool"));
                     ("cache", λ _, Thrown (VString "no memory")) ]
       (mkProcess (mkEnv None None) {[ "fetch" := VRef 3 ]} [])).2
    !! "fetch" = Some (VRef 3).
Proof.
  refine (proj1 (proj2 (devStable_only_adds _ _)) "fetch" (VRef 3) _).
  reflexivity.
Defined.

Lemma devStable_value p key init :
  isDevStableEnabled (env p) = true →
  (devStable key init p).1
    = match globalThis p !! fullKey key with
      | Some w => Returned w
      | None => init tt
      end.
Proof.
  intros He.
  destruct (devStable_cases p key init)
    as [(_ & w & Hw & Hc)|[(_ & Hw & w & Hi & Hc)|[(_ & Hw & e & Hi & Hc)
        |(Hd & _)]]]; [| | |congruence]; by rewrite Hc, Hw.
Qed.

Lemma devStable_globalThis p key init :
  isDevStableEnabled (env p) = true →
  globalThis (devStable key init p).2
    = match globalThis p !! fullKey key, init tt with
      | None, Returned v => <[fullKey key := v]> (globalThis p)
      | _, _ => globalThis p
      end.
Proof.
  intros He.
  destruct (devStable_cases p key init)
    as [(_ & w & Hw & Hc)|[(_ & Hw & w & Hi & Hc)|[(_ & Hw & e & Hi & Hc)
        |(Hd & _)]]]; [| | |congruence]; rewrite Hc, Hw; try done;
    by rewrite Hi.
Qed.



(** The result of the first initializer a series brings for a key that
    returns; the initializers before it threw. *)
Fixpoint first_returned (key : string)
    (calls : list (string * (unit → Completion))) : option value :=
  match calls with
  | [] => None
  | (k, init) :: rest =>
      if decide (k = key)
      then match init tt with
           | Returned v => Some v
           | Thrown _ => first_returned key rest
           end
      else first_returned key rest
  end.



(** X8: with dev-stability disabled nothing is shared: every call of a series
    runs its own initializer and returns its result, so there are as many
    initializer runs as calls, and [globalThis] is not touched. *)
Theorem devStable_disabled_shares_nothing
    (calls : list (string * (unit → Completion))) (p : Process) :
  isDevStableEnabled (env p) = false →
  (devStable_all calls p).1 = map (λ c, c.2 tt) calls
  ∧ inits (devStable_all calls p).2 = rev (map fst calls) ++ inits p
  ∧ globalThis (devStable_all calls p).2 = globalThis p.
Proof.
  revert p. induction calls as [|[k init] rest IH]; intros p Hd; [done|].
  rewrite devStable_all_cons. simpl.
  assert (Hd1 : isDevStableEnabled (env (devStable k init p).2) = false)
    by (by rewrite devStable_env).
  destruct (IH _ Hd1) as (Hres & Hin & Hg).
  rewrite Hres, Hin, Hg. rewrite devStable_disabled by done. simpl.
  split; [done|]. split; [|done]. by rewrite <-app_assoc.
Qed.

Lemma devStable_disabled_shares_nothing_witness :
  (devStable_all [ ("db", λ _, Returned (VString "one"));
                   ("db", λ _, Returned (VString "two")) ]
     prod_process).1 = [Returned (VString "one"); Returned (VString "two")].
Proof.
  exact (proj1 (devStable_disabled_shares_nothing
                  [ ("db", λ _, Returned (VString "one"));
                    ("db", λ _, Returned (VString "two")) ]
                  prod_process eq_refl)).
Defined.

End DevStableSeries.

(** ** The kernel discovery chain under a host program *)
Module InvokeHostSpec.
Import KernelModel Invoke InvokeHost.

(** Induction over steps, through the blocks they nest. *)
Lemma Step_nested_ind (P : Step → Prop) :
  (∀ fn, P (SetCurrentKernelFn fn)) → (∀ k, P (SetGlobalKernel k)) →
  P GetInvokeKernel →
  (∀ k body, Forall P body → P (RunWithKernel k body)) →
  ∀ st, P st.
Proof.
  intros Hfn Hg Hi Hr. fix IH 1. intros [fn|k| |k body].
  - apply Hfn.
  - apply Hg.
  - exact Hi.
  - apply Hr. induction body as [|s l IHl]; constructor; [apply IH|exact IHl].
Qed.

Lemma run_step_RunWithKernel k body rt :
  run_step (RunWithKernel k body) rt = runWithKernel k (run_steps body) rt.
Proof.
  cbn [run_step]. unfold runWithKernel.
  assert (Hgo : ∀ l r,
    (fix go (l : list Step) (rt0 : Runtime) : list Kernel * Runtime :=
       match l with
       | [] => ([], rt0)
       | s :: l' =>
           let '(ks, rt1) := run_step s rt0 in
           let '(ks', rt2) := go l' rt1 in
           (ks ++ ks', rt2)
       end) l r = run_steps l r).
  { induction l as [|s l IHl]; intros r; [done|].
    cbn [run_steps]. destruct (run_step s r) as [ks r1]. by rewrite IHl. }
  by rewrite Hgo.
Qed.

Lemma run_steps_cons s l rt :
  run_steps (s :: l) rt
    = ((run_step s rt).1 ++ (run_steps l (run_step s rt).2).1,
       (run_steps l (run_step s rt).2).2).
Proof.
  cbn [run_steps]. destruct (run_step s rt) as [ks r1]. cbn [fst snd].
  by destruct (run_steps l r1).
Qed.

Lemma runWithKernel_result {T} k (f : Runtime → T * Runtime) rt :
  let inner := f (mkRuntime (store rt) (currentKernelFn rt) (Some k)
                            (globalKernel rt)) in
  runWithKernel k f rt
    = (inner.1, mkRuntime (store inner.2) (currentKernelFn inner.2) (als rt)
                          (globalKernel inner.2)).
Proof. unfold runWithKernel. simpl. by destruct (f _). Qed.

(** The carrier is the caller's again after every step. *)
Lemma run_step_als st rt : als (run_step st rt).2 = als rt.
Proof.
  destruct st as [fn|k| |k body].
  - done.
  - done.
  - cbn [run_step].
    pose proof (InvokeSpec.getInvokeKernel_keeps_variables rt) as (_ & Ha & _).
    by destruct (getInvokeKernel rt).
  - by rewrite run_step_RunWithKernel, runWithKernel_result.
Qed.

Lemma run_steps_als l rt : als (run_steps l rt).2 = als rt.
Proof.
  revert rt. induction l as [|s l IH]; intros rt; [done|].
  rewrite run_steps_cons. cbn [snd]. by rewrite IH, run_step_als.
Qed.

Lemma run_step_fn_stays st :
  ∀ rt, is_Some (currentKernelFn rt) →
        is_Some (currentKernelFn (run_step st rt).2).
Proof.
  induction st as [fn|k| |k body IH] using Step_nested_ind; intros rt Hs.
  - by eexists.
  - done.
  - cbn [run_step].
    pose proof (InvokeSpec.getInvokeKernel_keeps_variables rt) as (Hf & _ & _).
    destruct (getInvokeKernel rt). cbn [snd] in *. by rewrite Hf.
  - rewrite run_step_RunWithKernel, runWithKernel_result. cbn [snd currentKernelFn].
    set (rt0 := mkRuntime _ _ _ _).
    assert (Hs0 : is_Some (currentKernelFn rt0)) by done.
    clearbody rt0. revert rt0 Hs0.
    induction IH as [|s l Hs1 Hl IHl]; intros rt0 Hs0; [done|].
    rewrite run_steps_cons. cbn [snd]. apply IHl. by apply Hs1.
Qed.

(** What a current-kernel function answers when it is asked [n] times in a
    row, with the store it leaves. *)
Fixpoint provided (fn : CurrentKernelFn) (n : nat) (s : Store)
    : list Kernel * Store :=
  match n with
  | 0 => ([], s)
  | S m =>
      let '(k, s1) := fn s in
      let '(ks, s2) := provided fn m s1 in
      (k :: ks, s2)
  end.

(** How often a step asks for the kernel of an invocation. *)
Fixpoint invocations (st : Step) : nat :=
  match st with
  | SetCurrentKernelFn _ | SetGlobalKernel _ => 0
  | GetInvokeKernel => 1
  | RunWithKernel _ body => list_sum (map invocations body)
  end.

Lemma provided_add fn n m s :
  provided fn (n + m) s
    = ((provided fn n s).1 ++ (provided fn m (provided fn n s).2).1,
       (provided fn m (provided fn n s).2).2).
Proof.
  revert s. induction n as [|n IH]; intros s.
  { cbn. by destruct (provided fn m s). }
  cbn [Nat.add provided]. destruct (fn s) as [k s1]. rewrite IH.
  destruct (provided fn n s1) as [ks s2]. cbn [fst snd].
  by destruct (provided fn m s2).
Qed.

Section FnSet.

Variable fn : CurrentKernelFn.

Definition answers_fn (st_answers : list Kernel * Runtime) (n : nat)
    (rt : Runtime) : Prop :=
  st_answers.1 = (provided fn n (store rt)).1
  ∧ store st_answers.2 = (provided fn n (store rt)).2
  ∧ currentKernelFn st_answers.2 = Some fn.

Lemma run_steps_fn_answers body :
  Forall (λ st, ∀ rt, currentKernelFn rt = Some fn → sets_fn st = false →
                      answers_fn (run_step st rt) (invocations st) rt) body →
  ∀ rt, currentKernelFn rt = Some fn → existsb sets_fn body = false →
        answers_fn (run_steps body rt) (list_sum (map invocations body)) rt.
Proof.
  induction 1 as [|s l Hs Hl IHl]; intros rt Hfn Hno; [done|].
  cbn [existsb] in Hno. apply orb_false_iff in Hno as [Hno1 Hno2].
  destruct (Hs rt Hfn Hno1) as (Ha & Hst & Hf).
  destruct (IHl _ Hf Hno2) as (Ha' & Hst' & Hf').
  rewrite run_steps_cons. unfold answers_fn in *.
  change (list_sum (map invocations (s :: l)))
    with (invocations s + list_sum (map invocations l)).
  rewrite provided_add. cbn [fst snd].
  rewrite Ha, Ha', Hst', Hst. done.
Qed.

Lemma run_step_fn_answers st :
  ∀ rt, currentKernelFn rt = Some fn → sets_fn st = false →
        answers_fn (run_step st rt) (invocations st) rt.
Proof.
  induction st as [fn'|k| |k body IH] using Step_nested_ind; intros rt Hfn Hno.
  - done.
  - done.
  - cbn [run_step invocations provided].
    rewrite (InvokeSpec.getInvokeKernel_from_fn rt fn Hfn).
    unfold answers_fn. cbn [provided fst snd store currentKernelFn].
    by destruct (fn (store rt)).
  - rewrite run_step_RunWithKernel, runWithKernel_result.
    cbn [sets_fn] in Hno. cbn [invocations].
    set (rt0 := mkRuntime _ _ _ _).
    destruct (run_steps_fn_answers body IH rt0 Hfn Hno) as (Ha & Hst & Hf).
    unfold answers_fn. cbn [fst snd store currentKernelFn]. done.
Qed.

End FnSet.

(** X9: a current-kernel function, once set, decides every invocation: no
    step of a host program unsets it, and as long as the program does not
    set another one, [runWithKernel] blocks at any depth and
    [setGlobalKernel] make no difference: the kernels [getInvokeKernel]
    answers are those the function provides when asked that many times in a
    row, and the store is the one the function leaves. *)
Theorem current_kernel_fn_overrides_carrier (steps : list Step)
    (rt : Runtime) :
  (is_Some (currentKernelFn rt) →
     is_Some (currentKernelFn (run_steps steps rt).2))
  ∧ (∀ fn, currentKernelFn rt = Some fn → existsb sets_fn steps = false →
       (run_steps steps rt).1
         = (provided fn (list_sum (map invocations steps)) (store rt)).1
       ∧ store (run_steps steps rt).2
         = (provided fn (list_sum (map invocations steps)) (store rt)).2).
Proof.
  split.
  - revert rt. induction steps as [|s l IH]; intros rt Hs; [done|].
    rewrite run_steps_cons. cbn [snd]. apply IH. by apply run_step_fn_stays.
  - intros fn Hfn Hno.
    destruct (run_steps_fn_answers fn steps) with (rt := rt) as (Ha & Hst & _);
      [|done|done|done].
    apply Forall_forall. intros st _. apply run_step_fn_answers.
Qed.

Lemma current_kernel_fn_overrides_carrier_witness :
  let provider : CurrentKernelFn := λ s, (mkKernel 7 8 None, s) in
  (run_steps [RunWithKernel InvokeSpec.root_kernel [GetInvokeKernel];
              SetGlobalKernel InvokeSpec.root_kernel; GetInvokeKernel]
     (setCurrentKernelFn provider InvokeSpec.global_only)).1
  = [mkKernel 7 8 None; mkKernel 7 8 None].
Proof.
  intros provider.
  exact (proj1 (proj2 (current_kernel_fn_overrides_carrier
           [RunWithKernel InvokeSpec.root_kernel [GetInvokeKernel];
            SetGlobalKernel InvokeSpec.root_kernel; GetInvokeKernel]
           (setCurrentKernelFn provider InvokeSpec.global_only))
           provider eq_refl eq_refl)).
Defined.

Section NoFn.

Definition answers_carried (out : list Kernel * Runtime) (expected : list Kernel)
    (k : Kernel) (rt : Runtime) : Prop :=
  out.1 = expected ∧ store out.2 = store rt
  ∧ currentKernelFn out.2 = None ∧ als out.2 = Some k.

Lemma run_steps_carried k body :
  Forall (λ st, ∀ k rt, currentKernelFn rt = None → als rt = Some k →
                        sets_fn st = false →
                        answers_carried (run_step st rt) (carried k st) k rt)
         body →
  ∀ rt, currentKernelFn rt = None → als rt = Some k →
        existsb sets_fn body = false →
        answers_carried (run_steps body rt) (flat_map (carried k) body) k rt.
Proof.
  induction 1 as [|s l Hs Hl IHl]; intros rt Hfn Hals Hno; [done|].
  cbn [existsb] in Hno. apply orb_false_iff in Hno as [Hno1 Hno2].
  destruct (Hs k rt Hfn Hals Hno1) as (Ha & Hst & Hf & Hal).
  destruct (IHl _ Hf Hal Hno2) as (Ha' & Hst' & Hf' & Hal').
  rewrite run_steps_cons. unfold answers_carried. cbn [fst snd flat_map].
  rewrite Ha, Ha', Hst', Hst. done.
Qed.

Lemma run_step_carried st :
  ∀ k rt, currentKernelFn rt = None → als rt = Some k → sets_fn st = false →
          answers_carried (run_step st rt) (carried k st) k rt.
Proof.
  induction st as [fn'|k'| |k' body IH] using Step_nested_ind;
    intros k rt Hfn Hals Hno.
  - done.
  - done.
  - cbn [run_step carried].
    rewrite (InvokeSpec.getInvokeKernel_from_als rt k Hfn Hals).
    done.
  - rewrite run_step_RunWithKernel, runWithKernel_result.
    cbn [sets_fn] in Hno. cbn [carried].
    set (rt0 := mkRuntime _ _ _ _).
    destruct (run_steps_carried k' body IH rt0 Hfn eq_refl Hno)
      as (Ha & Hst & Hf & _).
    unfold answers_carried. cbn [fst snd store currentKernelFn als]. done.
Qed.

End NoFn.

(** X10: without a current-kernel function, a [runWithKernel] block scopes
    the kernel like a binder: every [getInvokeKernel] in the block, however
    the blocks nest, answers the kernel of the innermost block around it; no
    container is created and the global kernel is never consulted.  After
    any program, with or without such a function, the carrier is what the
    caller had. *)
Theorem carrier_follows_nesting (k : Kernel) (body : list Step)
    (rt : Runtime) :
  (currentKernelFn rt = None → existsb sets_fn body = false →
     (run_step (RunWithKernel k body) rt).1 = flat_map (carried k) body
     ∧ store (run_step (RunWithKernel k body) rt).2 = store rt)
  ∧ als (run_step (RunWithKernel k body) rt).2 = als rt
  ∧ als (run_steps body rt).2 = als rt.
Proof.
  split; [|split; [apply run_step_als|apply run_steps_als]].
  intros Hfn Hno.
  rewrite run_step_RunWithKernel, runWithKernel_result.
  set (rt0 := mkRuntime _ _ _ _).
  destruct (run_steps_carried k body) with (rt := rt0) as (Ha & Hst & _);
    [|done|done|done|done].
  apply Forall_forall. intros st _. apply run_step_carried.
Qed.

Lemma carrier_follows_nesting_witness :
  (run_step
     (RunWithKernel (mkKernel 2 1 (Some 0))
        [GetInvokeKernel;
         RunWithKernel (mkKernel 3 1 (Some 0)) [GetInvokeKernel];
         GetInvokeKernel])
     InvokeSpec.global_only).1
  = [mkKernel 2 1 (Some 0); mkKernel 3 1 (Some 0); mkKernel 2 1 (Some 0)].
Proof.
  exact (proj1 (proj1 (carrier_follows_nesting (mkKernel 2 1 (Some 0))
           [GetInvokeKernel;
            RunWithKernel (mkKernel 3 1 (Some 0)) [GetInvokeKernel];
            GetInvokeKernel]
           InvokeSpec.global_only) eq_refl eq_refl)).
Defined.

End InvokeHostSpec.
